(** * Sharing invites and default principal access control

    A shallow embedding of [twistedcaldav/sharing.py] (the invite table, the
    sharing mixin and the POST handler that reconciles a batch of invite
    operations) and of the oracle tables of
    [twistedcaldav/directory/test/test_principal.py].

    Python dictionaries are finite maps ([gmap]) whose iteration order is a
    parameter; Python sets are [gset]; the SQLite table is a list of rows
    together with the log of the statements executed on it; [uuid4] is a
    stream indexed by the number of draws. *)

From Stdlib Require Import String Ascii.
From stdpp Require Import base option list sorting gmap sets strings fin_maps.

#[global] Set Warnings "-clear-no-such-hyp".

(** ** The invite record ([class Invite]) *)

Record Invite := mkInvite {
  inviteuid : string;
  userid : string;
  access : string;
  state : string;
  summary : string
}.

#[global] Instance Invite_eq_dec : EqDecision Invite.
Proof. solve_decision. Defined.

Definition set_state (s : string) (r : Invite) : Invite :=
  mkInvite (inviteuid r) (userid r) (access r) s (summary r).

(** [order by USERID].  SQLite's [order by] on a text column (binary
    collation) and [sorted] on Python 2 byte strings both compare bytewise,
    as [String.le] does. *)
Definition userid_le (a b : Invite) : Prop := String.le (userid a) (userid b).

#[global] Instance userid_le_dec a b : Decision (userid_le a b).
Proof. unfold userid_le. apply _. Defined.

#[global] Instance userid_le_total : Total userid_le.
Proof. intros a b. apply String.le_total. Qed.

#[global] Instance userid_le_trans : Transitive userid_le.
Proof. intros a b c. unfold userid_le. apply transitivity. Qed.

(** ** The INVITE table ([class InvitesDatabase])

    [create table INVITE (INVITEUID text unique, USERID text unique, ACCESS
    text, STATE text, SUMMARY text)].  The rows are kept in insertion order. *)

Inductive Sql :=
| SelectAllOrderByUserid
| InsertOrReplace (r : Invite)
| DeleteWhereUserid (u : string)
| DeleteWhereInviteuid (i : string).

Module InvitesTable.

Definition t := list Invite.

(** [insert or replace]: the rows that clash with the new row on a unique
    column (USERID or INVITEUID) are deleted, then the row is inserted. *)
Definition insert_or_replace (r : Invite) (rows : t) : t :=
  filter (λ x, userid x ≠ userid r ∧ inviteuid x ≠ inviteuid r) rows ++ [r].

Definition delete_where_userid (u : string) (rows : t) : t :=
  filter (λ x, userid x ≠ u) rows.

Definition delete_where_inviteuid (i : string) (rows : t) : t :=
  filter (λ x, inviteuid x ≠ i) rows.

Definition select_order_by_userid (rows : t) : list Invite :=
  merge_sort userid_le rows.

(** The two [unique] constraints of the schema. *)
Definition unique (rows : t) : Prop :=
  NoDup (userid <$> rows) ∧ NoDup (inviteuid <$> rows).

End InvitesTable.

(** ** The state the handler runs in *)

Record World := mkWorld {
  INVITE : InvitesTable.t;
  executed : list Sql;
  uuids_drawn : nat
}.

Definition M (A : Type) : Type := World → A * World.

#[global] Instance M_ret : MRet M := λ A a w, (a, w).
#[global] Instance M_bind : MBind M :=
  λ A B k c w, let (a, w') := c w in k a w'.

(** [for x in l: s = body(x, s)] *)
Fixpoint foldM {A S} (body : A → S → M S) (l : list A) (s : S) : M S :=
  match l with
  | [] => mret s
  | x :: l' => s' ← body x s; foldM body l' s'
  end.

Definition _db_execute (q : Sql) : M (list Invite) := λ w,
  match q with
  | SelectAllOrderByUserid =>
      (InvitesTable.select_order_by_userid (INVITE w),
       mkWorld (INVITE w) (executed w ++ [q]) (uuids_drawn w))
  | InsertOrReplace r =>
      ([], mkWorld (InvitesTable.insert_or_replace r (INVITE w))
                   (executed w ++ [q]) (uuids_drawn w))
  | DeleteWhereUserid u =>
      ([], mkWorld (InvitesTable.delete_where_userid u (INVITE w))
                   (executed w ++ [q]) (uuids_drawn w))
  | DeleteWhereInviteuid i =>
      ([], mkWorld (InvitesTable.delete_where_inviteuid i (INVITE w))
                   (executed w ++ [q]) (uuids_drawn w))
  end.

Module InvitesDatabase.

Definition allRecords : M (list Invite) :=
  _db_execute SelectAllOrderByUserid.

Definition addOrUpdateRecord (record : Invite) : M unit :=
  _db_execute (InsertOrReplace record);; mret tt.

Definition removeRecordForUserID (u : string) : M unit :=
  _db_execute (DeleteWhereUserid u);; mret tt.

Definition removeRecordForInviteUID (i : string) : M unit :=
  _db_execute (DeleteWhereInviteuid i);; mret tt.

End InvitesDatabase.

(** ** Request documents

    The elements of [davxml] and [customxml] that the handler tests with
    [isinstance]; any other element is an [OtherElement]. *)

Inductive AccessElement := ReadAccess | ReadWriteAccess.

#[global] Instance AccessElement_eq_dec : EqDecision AccessElement.
Proof. solve_decision. Defined.

#[global] Instance AccessElement_countable : Countable AccessElement :=
  inj_countable'
    (λ a, match a with ReadAccess => false | ReadWriteAccess => true end)
    (λ b : bool, if b then ReadWriteAccess else ReadAccess)
    (λ a, match a with ReadAccess => eq_refl | ReadWriteAccess => eq_refl end).

#[warnings="-register-all"]
Inductive Element :=
| PCDATAElement (data : string)
| HRef (children : list Element)
| InviteSummary (children : list Element)
| Access (a : AccessElement)
| InviteSet (children : list Element)
| InviteRemove (children : list Element)
| OtherElement (children : list Element).

Definition inviteAccessMapFromXML (ace : AccessElement) : string :=
  match ace with
  | ReadAccess => "read-only"
  | ReadWriteAccess => "read-write"
  end.

Inductive responsecode := OK | MULTI_STATUS | BAD_REQUEST | FORBIDDEN.

Inductive Response :=
| Code (c : responsecode)
| ErrorResponse (c : responsecode) (description : string)
| MultiStatusResponse (xml_responses : list (string * responsecode)).

Inductive Exception :=
| HTTPError (response : Response)
| TypeError
| KeyError.

(** [for x in children: if isinstance(x, PCDATAElement): v = x.data] *)
Definition last_pcdata (children : list Element) (v : option string)
  : option string :=
  foldl (λ v x, match x with PCDATAElement data => Some data | _ => v end)
        v children.

(** A string is true when it is not empty. *)
Definition truthy (s : string) : bool := bool_decide (s ≠ "").

Definition missing (what : string) : Exception :=
  HTTPError (ErrorResponse FORBIDDEN ("missing " +:+ what)).

(** One round of the loop of [_handleInviteSet] over [inviteset.children]. *)
Definition read_set_item
    (vars : option string * option AccessElement * option string)
    (item : Element) : option string * option AccessElement * option string :=
  let '(u, a, s) := vars in
  match item with
  | HRef ch => (last_pcdata ch u, a, s)
  | InviteSummary ch => (u, a, last_pcdata ch s)
  | Access x => (u, Some x, s)
  | _ => (u, a, s)
  end.

(** [_handleInviteSet]: in [if userid and access and summary] a string is
    true when it is not empty and an element object is true; [inr None] is
    the implicit [return None] reached when the three values are present and
    one of the strings is empty. *)
Definition _handleInviteSet (children : list Element)
  : Exception + option (string * AccessElement * string) :=
  let '(u, a, s) := foldl read_set_item (None, None, None) children in
  match u, a, s with
  | Some u, Some a, Some s =>
      if truthy u && truthy s then inr (Some (u, a, s)) else inr None
  | None, _, _ => inl (missing "href")
  | Some _, None, _ => inl (missing "access")
  | Some _, Some _, None => inl (missing "summary")
  end.

(** The mandatory fields of an [InviteSet]: a user id (text inside an
    [HRef]), an access element, and a summary (text inside an
    [InviteSummary]). *)
Definition has_userid (children : list Element) : Prop :=
  ∃ ch data, HRef ch ∈ children ∧ PCDATAElement data ∈ ch.

Definition has_access (children : list Element) : Prop :=
  ∃ a, Access a ∈ children.

Definition has_summary (children : list Element) : Prop :=
  ∃ ch data, InviteSummary ch ∈ children ∧ PCDATAElement data ∈ ch.

Definition lacks_mandatory_field (children : list Element) : Prop :=
  ¬ has_userid children ∨ ¬ has_access children ∨ ¬ has_summary children.

(** The exceptions raised while the request is read. *)
Definition request_error (e : Exception) : Prop :=
  e = TypeError ∨ ∃ what, e = missing what.

Definition _handleInviteRemove (children : list Element)
  : Exception + (string * option (gset AccessElement)) :=
  let '(u, acc) :=
    foldl (λ '(u, acc) item,
             match item with
             | HRef ch => (last_pcdata ch u, acc)
             | Access x => (u, acc ++ [x])
             | _ => (u, acc)
             end)
          (None, []) children in
  match u with
  | None => inl (missing "href")
  | Some u =>
      inr (u, if decide (length acc = 0) then None else Some (list_to_set acc))
  end.

Abbreviation SetDict := (gmap string (AccessElement * string)).
Abbreviation RemoveDict := (gmap string (option (gset AccessElement))).
Abbreviation UpdateDict :=
  (gmap string (option (gset AccessElement) * AccessElement * string)).

(** The first loop of [_processInviteDoc]; unpacking [None] is a
    [TypeError]. *)
Fixpoint read_items (items : list Element) (setDict : SetDict)
    (removeDict : RemoveDict) : Exception + (SetDict * RemoveDict) :=
  match items with
  | [] => inr (setDict, removeDict)
  | InviteSet ch :: items' =>
      match _handleInviteSet ch with
      | inl e => inl e
      | inr None => inl TypeError
      | inr (Some (u, a, s)) => read_items items' (<[u:=(a, s)]> setDict) removeDict
      end
  | InviteRemove ch :: items' =>
      match _handleInviteRemove ch with
      | inl e => inl e
      | inr (u, a) => read_items items' setDict (<[u:=a]> removeDict)
      end
  | _ :: items' => read_items items' setDict removeDict
  end.

(** [for u in sameUseridInRemoveAndSet: ...]; a subscript or [del] on a
    missing key is a [KeyError]. *)
Fixpoint move_to_update (us : list string) (setDict : SetDict)
    (removeDict : RemoveDict) (updateinviteDict : UpdateDict)
  : Exception + (SetDict * RemoveDict * UpdateDict) :=
  match us with
  | [] => inr (setDict, removeDict, updateinviteDict)
  | u :: us' =>
      match removeDict !! u, setDict !! u with
      | Some removeACL, Some (newACL, s) =>
          move_to_update us' (delete u setDict) (delete u removeDict)
            (<[u:=(removeACL, newACL, s)]> updateinviteDict)
      | _, _ => inl KeyError
      end
  end.

(** The entry [updateinviteDict] gets for a user that is both removed and
    set. *)
Definition collapsed (setDict0 : SetDict) (removeDict0 : RemoveDict)
    (k : string) : option (option (gset AccessElement) * AccessElement * string) :=
  match removeDict0 !! k, setDict0 !! k with
  | Some removeACL, Some (newACL, s) => Some (removeACL, newACL, s)
  | _, _ => None
  end.

(** [(okusers if result else badusers).add(userid)] *)
Definition add_user (u : string) (result : bool)
    (sets : gset string * gset string) : gset string * gset string :=
  if result then ({[u]} ∪ sets.1, sets.2) else (sets.1, {[u]} ∪ sets.2).

(** [okusers] and [badusers] after a loop over [us] whose calls return
    [result u]. *)
Definition tally (result : string → bool) (us : list string)
    (sets : gset string * gset string) : gset string * gset string :=
  foldl (λ sets u, add_user u (result u) sets) sets us.

Definition sorted (s : gset string) : list string :=
  merge_sort String.le (elements s).

Record Principal := mkPrincipal { principalURL : string }.

(** What the handler takes from its surroundings: the directory lookup of
    the resource, the stream of values [uuid4] returns, and the order in
    which a dictionary is iterated. *)
Record Env := mkEnv {
  principalForCalendarUserAddress : string → option Principal;
  uuid4 : nat → string;
  iteritems : ∀ V, gmap string V → list (string * V)
}.

Section SharingMixin.

Variable env : Env.

Definition keys {V} (d : gmap string V) : list string :=
  (iteritems env V d).*1.

(** [if principal:] holds for every principal resource found. *)
Definition validUserIDForShare (u : string) : option string :=
  match principalForCalendarUserAddress env u with
  | Some principal => Some (principalURL principal)
  | None => None
  end.

Definition validateInvites : M unit :=
  records ← InvitesDatabase.allRecords;
  foldM (λ record _,
           if decide (validUserIDForShare (userid record) = None
                      ∧ state record ≠ "INVALID")
           then InvitesDatabase.addOrUpdateRecord (set_state "INVALID" record)
           else mret tt)
        records tt.

Definition draw_uuid4 : M string := λ w,
  (uuid4 env (uuids_drawn w),
   mkWorld (INVITE w) (executed w) (S (uuids_drawn w))).

Definition inviteSingleUserToShare (u : string) (ace : AccessElement)
    (s : string) : M bool :=
  i ← draw_uuid4;
  InvitesDatabase.addOrUpdateRecord
    (mkInvite i u (inviteAccessMapFromXML ace) "NEEDS-ACTION" s);;
  mret true.

Definition uninviteSingleUserFromShare (u : string)
    (aces : option (gset AccessElement)) : M bool :=
  InvitesDatabase.removeRecordForUserID u;;
  mret true.

Definition inviteSingleUserUpdateToShare (u : string)
    (acesOLD : option (gset AccessElement)) (aceNEW : AccessElement)
    (s : string) : M bool :=
  inviteSingleUserToShare u aceNEW s.

(** [validUserIDForShare] returns a string, so the list the source zips
    has one element and the [DeferredList] one result. *)
Definition inviteUserToShare (u : string) (ace : AccessElement)
    (s : string) : M bool :=
  match validUserIDForShare u with
  | None => mret false
  | Some u' => inviteSingleUserToShare u' ace s;; mret true
  end.

Definition uninviteUserToShare (u : string)
    (ace : option (gset AccessElement)) : M bool :=
  uninviteSingleUserFromShare u ace;; mret true.

Definition inviteUserUpdateToShare (u : string)
    (aceOLD : option (gset AccessElement)) (aceNEW : AccessElement)
    (s : string) : M bool :=
  match validUserIDForShare u with
  | None => mret false
  | Some u' => inviteSingleUserUpdateToShare u' aceOLD aceNEW s;; mret true
  end.

Definition sameUseridInRemoveAndSet (setDict : SetDict)
    (removeDict : RemoveDict) : list string :=
  filter (λ u, is_Some (setDict !! u)) (keys removeDict).

Definition remove_phase (removeDict : RemoveDict)
  : gset string * gset string → M (gset string * gset string) :=
  foldM (λ '(u, ace) sets,
           result ← uninviteUserToShare u ace;
           mret (add_user u result sets))
        (iteritems env _ removeDict).

Definition set_phase (setDict : SetDict)
  : gset string * gset string → M (gset string * gset string) :=
  foldM (λ '(u, (ace, s)) sets,
           result ← inviteUserToShare u ace s;
           mret (add_user u result sets))
        (iteritems env _ setDict).

Definition update_phase (updateinviteDict : UpdateDict)
  : gset string * gset string → M (gset string * gset string) :=
  foldM (λ '(u, (removeACL, newACL, s)) sets,
           result ← inviteUserUpdateToShare u removeACL newACL s;
           mret (add_user u result sets))
        (iteritems env _ updateinviteDict).

Definition report (okusers badusers : gset string) : Response :=
  if decide (badusers ≠ ∅) then
    MultiStatusResponse
      (((λ u, (u, OK)) <$> sorted okusers)
       ++ ((λ u, (u, FORBIDDEN)) <$> sorted badusers))
  else Code OK.

(** The three dictionaries after the special case for a user that is both
    removed and set. *)
Definition split_dicts (children : list Element)
  : Exception + (SetDict * RemoveDict * UpdateDict) :=
  match read_items children ∅ ∅ with
  | inl e => inl e
  | inr (setDict, removeDict) =>
      move_to_update (sameUseridInRemoveAndSet setDict removeDict)
        setDict removeDict ∅
  end.

(** The body of [_processInviteDoc] after the dictionaries are built, up
    to the final validation; it returns [(okusers, badusers)]. *)
Definition apply_batch (setDict : SetDict) (removeDict : RemoveDict)
    (updateinviteDict : UpdateDict) : M (gset string * gset string) :=
  sets ← remove_phase removeDict (∅, ∅);
  sets ← set_phase setDict sets;
  sets ← update_phase updateinviteDict sets;
  validateInvites;;
  mret sets.

Definition _processInviteDoc (children : list Element)
  : M (Exception + Response) :=
  match split_dicts children with
  | inl e => mret (inl e)
  | inr (setDict, removeDict, updateinviteDict) =>
      sets ← apply_batch setDict removeDict updateinviteDict;
      mret (inr (report sets.1 sets.2))
  end.

(** [_handleErrorResponse], the errback of the chain. *)
Definition _handleErrorResponse (error : Exception) : Response :=
  match error with
  | HTTPError response => response
  | _ => Code BAD_REQUEST
  end.

Definition _handleInvite (children : list Element) : M Response :=
  r ← _processInviteDoc children;
  mret (match r with inl e => _handleErrorResponse e | inr resp => resp end).

(** *** The effect of one call, as a function on the state *)

Definition invited (u' : string) (ace : AccessElement) (s : string)
    (w : World) : Invite :=
  mkInvite (uuid4 env (uuids_drawn w)) u' (inviteAccessMapFromXML ace)
           "NEEDS-ACTION" s.

Definition after_invite (u' : string) (ace : AccessElement) (s : string)
    (w : World) : World :=
  mkWorld (InvitesTable.insert_or_replace (invited u' ace s w) (INVITE w))
          (executed w ++ [InsertOrReplace (invited u' ace s w)])
          (S (uuids_drawn w)).

Definition after_set (u : string) (ace : AccessElement) (s : string)
    (w : World) : World :=
  match validUserIDForShare u with
  | None => w
  | Some u' => after_invite u' ace s w
  end.

Definition after_uninvite (u : string) (w : World) : World :=
  mkWorld (InvitesTable.delete_where_userid u (INVITE w))
          (executed w ++ [DeleteWhereUserid u]) (uuids_drawn w).

Definition resolves (u : string) : bool :=
  bool_decide (is_Some (validUserIDForShare u)).

(** The row [validateInvites] leaves in place of [r]. *)
Definition needs_invalid (r : Invite) : Prop :=
  validUserIDForShare (userid r) = None ∧ state r ≠ "INVALID".

Definition mark (r : Invite) : Invite :=
  if decide (needs_invalid r) then set_state "INVALID" r else r.

(** One round of the loop of [validateInvites]. *)
Definition sweep_step (r : Invite) (w : World) : World :=
  if decide (needs_invalid r) then
    mkWorld (InvitesTable.insert_or_replace (set_state "INVALID" r) (INVITE w))
            (executed w ++ [InsertOrReplace (set_state "INVALID" r)])
            (uuids_drawn w)
  else w.

Definition selected (w : World) : World :=
  mkWorld (INVITE w) (executed w ++ [SelectAllOrderByUserid]) (uuids_drawn w).

(** The state after each of the three loops of [_processInviteDoc]. *)
Definition removed (removeDict : RemoveDict) (w : World) : World :=
  foldl (λ w kv, after_uninvite kv.1 w) w (iteritems env _ removeDict).

Definition was_set (setDict : SetDict) (w : World) : World :=
  foldl (λ w kv, after_set kv.1 kv.2.1 kv.2.2 w) w (iteritems env _ setDict).

Definition updated (updateinviteDict : UpdateDict) (w : World) : World :=
  foldl (λ w kv, after_set kv.1 kv.2.1.2 kv.2.2 w) w
        (iteritems env _ updateinviteDict).

Definition mutated (setDict : SetDict) (removeDict : RemoveDict)
    (updateinviteDict : UpdateDict) (w : World) : World :=
  updated updateinviteDict (was_set setDict (removed removeDict w)).

Definition outcome (setDict : SetDict) (removeDict : RemoveDict)
    (updateinviteDict : UpdateDict) : gset string * gset string :=
  tally resolves (keys updateinviteDict)
    (tally resolves (keys setDict)
       (tally (λ _, true) (keys removeDict) (∅, ∅))).

(** Iterating a dictionary visits each of its items once. *)
Definition iteration_ok : Prop :=
  ∀ V (d : gmap string V), iteritems env V d ≡ₚ map_to_list d.

(** Every stored invite uid was returned by an earlier [uuid4] call. *)
Definition uids_drawn_before (w : World) : Prop :=
  ∀ r, r ∈ INVITE w → ∃ k, k < uuids_drawn w ∧ inviteuid r = uuid4 env k.

End SharingMixin.

(** ** Store mutations, for statements that range over all of them *)

Inductive Mutation :=
| AddOrUpdate (record : Invite)
| RemoveForUserID (u : string)
| RemoveForInviteUID (i : string).

Definition mutate (m : Mutation) : M unit :=
  match m with
  | AddOrUpdate record => InvitesDatabase.addOrUpdateRecord record
  | RemoveForUserID u => InvitesDatabase.removeRecordForUserID u
  | RemoveForInviteUID i => InvitesDatabase.removeRecordForInviteUID i
  end.

(** The store after [create()]: an empty table. *)
Definition created : World := mkWorld [] [] 0.

Definition exec {A} (c : M A) (w : World) : World := (c w).2.
Definition eval {A} (c : M A) (w : World) : A := (c w).1.

Definition rows_for_userid (u : string) (rows : list Invite) : list Invite :=
  filter (λ x, userid x = u) rows.


(** The collapse rule as the specification words it, for one request and one
    initial state: a user that is both set and removed leaves both
    dictionaries, ends in [okusers], and a row with the new access and
    summary is stored. *)
Definition collapse_claim (env : Env) (children : list Element)
    (w : World) : Prop :=
  ∀ (sd0 : SetDict) (rd0 : RemoveDict) u newACL s,
    read_items children ∅ ∅ = inr (sd0, rd0) →
    sd0 !! u = Some (newACL, s) → is_Some (rd0 !! u) →
    ∃ sd rd ud,
      split_dicts env children = inr (sd, rd, ud)
      ∧ sd !! u = None ∧ rd !! u = None
      ∧ u ∈ (apply_batch env sd rd ud w).1.1
      ∧ ∃ row, row ∈ INVITE (apply_batch env sd rd ud w).2
               ∧ access row = inviteAccessMapFromXML newACL
               ∧ summary row = s.

(** The remove rule as the specification words it, for one request and one
    initial state: the user of every [InviteRemove] item is counted in
    [okusers] and not in [badusers], whether or not it resolves. *)
Definition remove_claim (env : Env) (children : list Element)
    (w : World) : Prop :=
  ∀ (sd0 : SetDict) (rd0 : RemoveDict) u,
    read_items children ∅ ∅ = inr (sd0, rd0) →
    is_Some (rd0 !! u) →
    ∃ sd rd ud,
      split_dicts env children = inr (sd, rd, ud)
      ∧ u ∈ (apply_batch env sd rd ud w).1.1
      ∧ u ∉ (apply_batch env sd rd ud w).1.2.

(** * Principal provisioning ([directory/test/test_principal.py])

    The classes under test ([DirectoryPrincipalProvisioningResource],
    [DirectoryPrincipalTypeResource], [DirectoryPrincipalResource] and the
    directory services) are not part of the sources at hand; each is a record
    of what the methods called by the tests return.  [principalCollections]
    holds, for each collection the method returns, the value of its
    [principalCollectionURL()], which is all the tests read of it. *)

Module davxml.
Inductive PrincipalElement :=
  All | Unauthenticated | Authenticated | HRefPrincipal (url : string).
Inductive Privilege := Read | Write.
End davxml.

#[global] Instance PrincipalElement_eq_dec : EqDecision davxml.PrincipalElement.
Proof. solve_decision. Defined.

#[global] Instance Privilege_eq_dec : EqDecision davxml.Privilege.
Proof. solve_decision. Defined.



Module DirectoryPrincipalResource.
Record t := mk {
  principalURL : string;
  principalCollections : list string
}.
End DirectoryPrincipalResource.

Module DirectoryPrincipalTypeResource.
Record t := mk {
  principalCollectionURL : string;
  principalCollections : list string;
  listChildren : list string;
  getChild : string → option DirectoryPrincipalResource.t
}.
End DirectoryPrincipalTypeResource.

Module DirectoryPrincipalProvisioningResource.
Record t := mk {
  principalCollectionURL : string;
  principalCollections : list string;
  listChildren : list string;
  getChild : string → option DirectoryPrincipalTypeResource.t
}.
End DirectoryPrincipalProvisioningResource.









(** ** Default access control

    [_authReadOnlyPrivileges] and [_checkPrivileges] are the tests' own; the
    resource is the one [request.locateResource(url)] finds. *)

Definition _authReadOnlyPrivileges {R} (resource : R) (url : string)
  : list (R * string * davxml.PrincipalElement * davxml.Privilege * bool) :=
  (λ '(principal, privilege, allowed),
     (resource, url, principal, privilege, allowed))
  <$> [(davxml.All, davxml.Read, false);
       (davxml.All, davxml.Write, false);
       (davxml.Unauthenticated, davxml.Read, false);
       (davxml.Unauthenticated, davxml.Write, false);
       (davxml.Authenticated, davxml.Read, true);
       (davxml.Authenticated, davxml.Write, false)].

(** [checkPrivileges] either returns or fails with [AccessDeniedError]; the
    check passes when it returns exactly if [allowed]. *)
Definition _checkPrivileges {R}
    (checkPrivileges : R → davxml.Privilege → davxml.PrincipalElement → bool)
    (args : R * string * davxml.PrincipalElement * davxml.Privilege * bool)
  : bool :=
  let '(resource, url, principal, privilege, allowed) := args in
  bool_decide (checkPrivileges resource privilege principal = allowed).

(** The resources of the hierarchy the two access-control tests visit. *)
Inductive Node :=
| ProvisioningNode
| TypeNode (recordType : string)
| PrincipalNode (recordType shortName : string).

(** Modelled from the spec: the access-control model of section 3 and the
    privilege evaluator of section 4.2 ([checkPrivileges] and the default
    access control lists live in twisted.web2.dav and
    twistedcaldav/directory/principal.py, which are not among the sources).
    An entry is a matcher, a set of privileges and grant or deny; the list of
    a resource is its own entries followed by those of its ancestors; the
    first entry that matches the requesting principal and contains the
    privilege decides, and without one the answer is denial.  The default
    list grants Read to Authenticated and nothing else. *)
Record ACE := mkACE {
  ace_principal : davxml.PrincipalElement;
  ace_privileges : list davxml.Privilege;
  ace_grant : bool
}.

(** Modelled from the spec: a requesting principal "is authenticated" when
    it is the Authenticated principal or a named one (section 4.2). *)
Definition is_authenticated (requesting : davxml.PrincipalElement) : bool :=
  match requesting with
  | davxml.Authenticated | davxml.HRefPrincipal _ => true
  | _ => false
  end.

(** Modelled from the spec: "a matcher matches if requestingPrincipal is
    exactly the named principal, or is authenticated and matcher is
    Authenticated, or matcher is All, or (matcher is Unauthenticated and
    requestingPrincipal is absent)" (section 4.2). *)
Definition matches (requesting matcher : davxml.PrincipalElement) : bool :=
  bool_decide (requesting = matcher)
  || match matcher with
     | davxml.All => true
     | davxml.Authenticated => is_authenticated requesting
     | davxml.Unauthenticated => bool_decide (requesting = davxml.Unauthenticated)
     | davxml.HRefPrincipal _ => false
     end.

(** Modelled from the spec: "on first entry whose matcher matches and whose
    privilege-set contains the requested privilege: if grant, Allowed; if
    deny, Denied.  No matching entry: Denied" (section 4.2). *)
Fixpoint check (acl : list ACE) (requesting : davxml.PrincipalElement)
    (privilege : davxml.Privilege) : bool :=
  match acl with
  | [] => false
  | ace :: acl' =>
      if matches requesting (ace_principal ace)
         && bool_decide (privilege ∈ ace_privileges ace)
      then ace_grant ace
      else check acl' requesting privilege
  end.

(** Modelled from the spec: "Authenticated principals get read-only
    privilege" by default (section 3). *)
Definition defaultAccessControlList : list ACE :=
  [mkACE davxml.Authenticated [davxml.Read] true].

(** Modelled from the spec: the two-level tree of section 2, service root,
    record-type bucket, individual principal. *)
Definition ancestors (node : Node) : list Node :=
  match node with
  | ProvisioningNode => []
  | TypeNode _ => [ProvisioningNode]
  | PrincipalNode recordType _ => [TypeNode recordType; ProvisioningNode]
  end.

(** Modelled from the spec: "own + inherited from ancestors, ancestor
    entries applied after own" (section 4.2); the default list "applies
    identically to every principal and every provisioning-hierarchy node"
    (section 6). *)
Definition accessControlList (node : Node) : list ACE :=
  defaultAccessControlList
  ++ (ancestors node ≫= λ _, defaultAccessControlList).

(** Modelled from the spec: [check(resource, requestingPrincipal,
    requestedPrivilege)] of section 4.2 on the list of the resource. *)
Definition checkPrivileges (node : Node) (privilege : davxml.Privilege)
    (principal : davxml.PrincipalElement) : bool :=
  check (accessControlList node) principal privilege.

(** ** Sample data

    A directory with two users, each known by a mail address and by its
    principal URL, a [uuid4] stream without repetition, and dictionaries
    iterated in key order. *)

Definition sample_directory (u : string) : option Principal :=
  if decide (u = "mailto:alice@example.com" ∨ u = "/principals/users/alice")
  then Some (mkPrincipal "/principals/users/alice")
  else if decide (u = "mailto:bob@example.com" ∨ u = "/principals/users/bob")
  then Some (mkPrincipal "/principals/users/bob")
  else None.

Fixpoint sample_uuid4 (n : nat) : string :=
  match n with
  | 0 => "0"
  | S n' => String "u" (sample_uuid4 n')
  end.

Definition sample_env : Env :=
  mkEnv sample_directory sample_uuid4 (λ V d, map_to_list d).

Definition invite_set (u : string) (a : AccessElement) (s : string) : Element :=
  InviteSet [HRef [PCDATAElement u]; Access a; InviteSummary [PCDATAElement s]].

Definition invite_remove (u : string) : Element :=
  InviteRemove [HRef [PCDATAElement u]].

(** A store holding an invite of a user that is no longer in the directory
    and an accepted invite of bob. *)
Definition sample_world : World :=
  mkWorld [mkInvite "0" "/principals/users/carol" "read-only" "ACCEPTED" "old";
           mkInvite "u0" "/principals/users/bob" "read-only" "ACCEPTED" "team"]
          [] 2.


(** * The rest of [sharing.py] *)

(** ** The maps between stored values and elements *)

Inductive InviteStatusElement :=
| InviteStatusNoResponse
| InviteStatusAccepted
| InviteStatusDeclined
| InviteStatusDeleted
| InviteStatusInvalid.

#[global] Instance InviteStatusElement_eq_dec : EqDecision InviteStatusElement.
Proof. solve_decision. Defined.

#[global] Instance InviteStatusElement_countable : Countable InviteStatusElement :=
  inj_countable'
    (λ e, match e with
          | InviteStatusNoResponse => 0 | InviteStatusAccepted => 1
          | InviteStatusDeclined => 2 | InviteStatusDeleted => 3
          | InviteStatusInvalid => 4
          end)
    (λ n : nat, match n with
                | 0 => InviteStatusNoResponse | 1 => InviteStatusAccepted
                | 2 => InviteStatusDeclined | 3 => InviteStatusDeleted
                | _ => InviteStatusInvalid
                end)
    (λ e, match e with
          | InviteStatusNoResponse | InviteStatusAccepted
          | InviteStatusDeclined | InviteStatusDeleted
          | InviteStatusInvalid => eq_refl
          end).

Definition inviteAccessMapToXML : gmap string AccessElement :=
  {["read-only" := ReadAccess; "read-write" := ReadWriteAccess]}.

Definition inviteStatusMapToXML : gmap string InviteStatusElement :=
  {["NEEDS-ACTION" := InviteStatusNoResponse;
    "ACCEPTED" := InviteStatusAccepted;
    "DECLINED" := InviteStatusDeclined;
    "DELETED" := InviteStatusDeleted;
    "INVALID" := InviteStatusInvalid]}.

(** [dict([(v, k) for k, v in d.iteritems()])]: each pair is stored in turn,
    a later one replacing an earlier one with the same key. *)
Definition inverted `{Countable V} (env : Env) (d : gmap string V)
  : gmap V string :=
  foldl (λ m kv, insert (kv.2) (kv.1) m) ∅ (iteritems env V d).

Definition inviteStatusMapFromXML (env : Env)
  : gmap InviteStatusElement string :=
  inverted env inviteStatusMapToXML.

(** ** [Invite.makePropertyElement] and [inviteProperty] *)

(** [customxml.InviteUser(UID, HRef, InviteAccess(access), status)] *)
Record InviteUser := mkInviteUser {
  UID : string;
  href : string;
  InviteAccess : AccessElement;
  InviteStatus : InviteStatusElement
}.

(** A subscript with a key the map does not have is a [KeyError]; the access
    is looked up before the state. *)
Definition makePropertyElement (self : Invite) : Exception + InviteUser :=
  match inviteAccessMapToXML !! access self with
  | None => inl KeyError
  | Some a =>
      match inviteStatusMapToXML !! state self with
      | None => inl KeyError
      | Some st => inr (mkInviteUser (inviteuid self) (userid self) a st)
      end
  end.

(** The rows [makePropertyElement] can render. *)
Definition renderable (r : Invite) : Prop :=
  is_Some (inviteAccessMapToXML !! access r)
  ∧ is_Some (inviteStatusMapToXML !! state r).

(** [[record.makePropertyElement() for record in records]] *)
Fixpoint makePropertyElements (records : list Invite)
  : Exception + list InviteUser :=
  match records with
  | [] => inr []
  | record :: records' =>
      match makePropertyElement record with
      | inl e => inl e
      | inr x =>
          match makePropertyElements records' with
          | inl e => inl e
          | inr xs => inr (x :: xs)
          end
      end
  end.

(** [inviteProperty]: [Sharing_Enabled] is [config.Sharing.Enabled] and
    [isShared] the value the callback [sharedOK] receives; the result is the
    list of children of [customxml.Invite], or [None]. *)
Definition inviteProperty (env : Env) (Sharing_Enabled isShared : bool)
  : M (Exception + option (list InviteUser)) :=
  if Sharing_Enabled && isShared then
    validateInvites env;;
    records ← InvitesDatabase.allRecords;
    mret (match makePropertyElements records with
          | inl e => inl e
          | inr xs => inr (Some xs)
          end)
  else mret (inr None).

(** [removeUserFromInvite] *)
Definition removeUserFromInvite (u : string) : M bool :=
  InvitesDatabase.removeRecordForUserID u;; mret true.

(** ** Rows and records

    The columns of [create table INVITE], those the [insert or replace]
    statement names with the values it binds to them, and [_makeRecord],
    which passes the columns of [select *] to [Invite] by position. *)

Inductive Column := INVITEUID | USERID | ACCESS | STATE | SUMMARY.

#[global] Instance Column_eq_dec : EqDecision Column.
Proof. solve_decision. Defined.

Definition table_columns : list Column :=
  [INVITEUID; USERID; ACCESS; STATE; SUMMARY].

Definition insert_columns : list Column :=
  [USERID; INVITEUID; ACCESS; STATE; SUMMARY].

Definition insert_values (record : Invite) : list string :=
  [userid record; inviteuid record; access record; state record;
   summary record].

(** The value a statement gives a column; a column it does not name is
    NULL. *)
Definition bound (columns : list Column) (values : list string) (c : Column)
  : option string :=
  snd <$> head (filter (λ cv : Column * string, cv.1 = c) (zip columns values)).

(** The row [addOrUpdateRecord] stores, in the order of the table. *)
Definition stored_row (record : Invite) : list (option string) :=
  bound insert_columns (insert_values record) <$> table_columns.

(** [Invite( *row )]: five positional arguments, else a [TypeError]. *)
Definition _makeRecord (row : list string) : Exception + Invite :=
  match row with
  | [a; b; c; d; e] => inr (mkInvite a b c d e)
  | _ => inl TypeError
  end.

(** ** The resource type of a shared collection *)

Inductive ResourceTypeChild :=
| Collection_
| Calendar
| SharedOwner
| Shared
| OtherResourceType (name : string).

#[global] Instance ResourceTypeChild_eq_dec : EqDecision ResourceTypeChild.
Proof. solve_decision. Defined.

(** The children of the resource type [upgradeToShare] writes:
    [rtype.children + (customxml.SharedOwner(),)]. *)
Definition upgraded (children : list ResourceTypeChild)
  : list ResourceTypeChild :=
  children ++ [SharedOwner].

(** The children of the resource type [downgradeFromShare] writes:
    [[child for child in rtype.children if child != customxml.SharedOwner()]]. *)
Definition downgraded (children : list ResourceTypeChild)
  : list ResourceTypeChild :=
  filter (λ child, child ≠ SharedOwner) children.

(** ** What a request item says

    The texts and elements the loops of [_handleInviteSet] and
    [_handleInviteRemove] meet, in document order. *)

Definition pcdata_of (children : list Element) : list string :=
  omap (λ x, match x with PCDATAElement data => Some data | _ => None end)
       children.

Definition href_texts (children : list Element) : list string :=
  children ≫= λ item, match item with HRef ch => pcdata_of ch | _ => [] end.

Definition summary_texts (children : list Element) : list string :=
  children ≫= λ item,
    match item with InviteSummary ch => pcdata_of ch | _ => [] end.

Definition access_elements (children : list Element) : list AccessElement :=
  omap (λ item, match item with Access a => Some a | _ => None end) children.

(** One round of the loop of [_handleInviteRemove]. *)
Definition read_remove_item (vars : option string * list AccessElement)
    (item : Element) : option string * list AccessElement :=
  let '(u, acc) := vars in
  match item with
  | HRef ch => (last_pcdata ch u, acc)
  | Access x => (u, acc ++ [x])
  | _ => (u, acc)
  end.

(** ** The POST entry points

    What the entry points read of a request: its [Content-Type] header
    ([None] when the request has none; a header name is looked up without
    regard to case), whether [authorize] grants read and write, and the
    document [WebDAVDocument.fromString] makes of the body ([None] when it
    raises [ValueError]). *)

Record MimeType := mkMimeType {
  mediaType : string;
  mediaSubtype : string;
  params : gmap string string
}.

Inductive Document :=
| InviteShare (children : list Element)
| OtherDocument.

Record Request := mkRequest {
  Content_Type : option MimeType;
  authorized : bool;
  body : option Document
}.

(** The failures of a POST: that of [authorize], and
    [HTTPError(ErrorResponse(responsecode.FORBIDDEN,
    (customxml.calendarserver_namespace, error)))]. *)
Inductive Failure :=
| NotAuthorized
| InvalidRequest (error : string).

(** A collection: the children of its resource type and its invites
    database. *)
Record Collection := mkCollection {
  resourceType : list ResourceTypeChild;
  invitesDB : World
}.

Definition xmlPOSTPreconditions (request : Request) : Failure + string :=
  match Content_Type request with
  | Some mimetype =>
      if bool_decide (mediaType mimetype ∈ ["application"; "text"])
         && bool_decide (mediaSubtype mimetype = "xml")
      then inr (default "utf8" (params mimetype !! "charset"))
      else inl (InvalidRequest "valid-request-content-type")
  | None => inl (InvalidRequest "valid-request-content-type")
  end.

(** [upgradeToShare] writes the new resource type and opens the database,
    which leaves its rows as they are. *)
Definition upgradeToShare (self : Collection) : bool * Collection :=
  (true, mkCollection (upgraded (resourceType self)) (invitesDB self)).

Definition _autoShare (isShared : bool) (self : Collection)
  : bool * Collection :=
  if negb isShared then upgradeToShare self else (true, self).

Section entry_points.
Variable env : Env.
(** [self.isCollection()] and [self.isSpecialCollection(customxml.SharedOwner)],
    which [isShared] returns. *)
Variable isCollection : bool.
Variable isShared : Collection → bool.

(** [_getData]: the handler of an [InviteShare] document is the chain
    [isShared], [_autoShare], [_processInviteDoc] with the errback
    [_handleErrorResponse]. *)
Definition _getData (doc : option Document) (self : Collection)
  : (Failure + Response) * Collection :=
  match doc with
  | None => (inl (InvalidRequest "valid-request-content"), self)
  | Some (InviteShare children) =>
      let self' := (_autoShare (isShared self) self).2 in
      let (response, db) := _handleInvite env children (invitesDB self') in
      (inr response, mkCollection (resourceType self') db)
  | Some OtherDocument =>
      (inl (InvalidRequest "valid-request-content"), self)
  end.

Definition xmlPOSTNoAuth (encoding : string) (request : Request)
    (self : Collection) : (Failure + Response) * Collection :=
  _getData (body request) self.

Definition xmlPOSTAuth (request : Request) (self : Collection)
  : (Failure + Response) * Collection :=
  if authorized request then
    match xmlPOSTPreconditions request with
    | inl e => (inl e, self)
    | inr encoding => xmlPOSTNoAuth encoding request self
    end
  else (inl NotAuthorized, self).

Definition _postHandlers
  : gmap (string * string)
         (Request → Collection → (Failure + Response) * Collection) :=
  {[ ("application", "xml") := xmlPOSTAuth; ("text", "xml") := xmlPOSTAuth ]}.

Definition http_POST (request : Request) (self : Collection)
  : (Failure + Response) * Collection :=
  if isCollection then
    match Content_Type request with
    | Some contentType =>
        match _postHandlers !! (mediaType contentType,
                                mediaSubtype contentType) with
        | Some handler => handler request self
        | None => (inr (Code FORBIDDEN), self)
        end
    | None => (inr (Code FORBIDDEN), self)
    end
  else (inr (Code FORBIDDEN), self).

End entry_points.
(** * Properties *)

(** ** The INVITE table *)

Section table_facts.
Import InvitesTable.
  Implicit Types (rows : list Invite) (r x y : Invite).

Lemma elem_of_insert_or_replace r rows x :
  x ∈ insert_or_replace r rows ↔
  x = r ∨ (x ∈ rows ∧ userid x ≠ userid r ∧ inviteuid x ≠ inviteuid r).
Proof.
  unfold insert_or_replace.
  rewrite elem_of_app, list_elem_of_filter, list_elem_of_singleton.
  tauto.
Qed.

Lemma unique_nil : unique [].
Proof. split; constructor. Qed.

Lemma unique_filter (P : Invite → Prop) `{∀ x, Decision (P x)} rows :
  unique rows → unique (filter P rows).
Proof.
  intros [Hu Hi]; split.
  - eapply sublist_NoDup; [exact Hu|]. apply fmap_sublist, sublist_filter.
  - eapply sublist_NoDup; [exact Hi|]. apply fmap_sublist, sublist_filter.
Qed.

Lemma filter_none (P : Invite → Prop) `{∀ x, Decision (P x)} rows :
  (∀ x, x ∈ rows → ¬ P x) → filter P rows = [].
Proof.
  induction rows as [|y rows IH]; intros HP; [done|].
  rewrite filter_cons_False by (apply HP; left).
  apply IH. intros x Hx. apply HP. by right.
Qed.

Lemma unique_insert_or_replace r rows :
  unique rows → unique (insert_or_replace r rows).
Proof.
  intros Hrows.
  pose proof (unique_filter
    (λ x, userid x ≠ userid r ∧ inviteuid x ≠ inviteuid r) rows Hrows)
    as [Hu Hi].
  unfold insert_or_replace; split; rewrite fmap_app; apply NoDup_app;
    (split; [assumption|]); (split; [|apply NoDup_singleton]);
    intros k Hk Hk'; apply list_elem_of_singleton in Hk'; subst k;
    apply list_elem_of_fmap in Hk as (x & Heq & Hx);
    apply list_elem_of_filter in Hx as [[? ?] _]; congruence.
Qed.

Lemma unique_userid rows x y :
  unique rows → x ∈ rows → y ∈ rows → userid x = userid y → x = y.
Proof.
  intros [Hu _] Hx Hy Heq.
  apply list_elem_of_lookup in Hx as [i Hi], Hy as [j Hj].
  assert (i = j) as ->; [|congruence].
  apply (NoDup_lookup _ i j (userid x) Hu);
    rewrite list_lookup_fmap; [rewrite Hi|rewrite Hj]; simpl; congruence.
Qed.

Lemma unique_inviteuid rows x y :
  unique rows → x ∈ rows → y ∈ rows → inviteuid x = inviteuid y → x = y.
Proof.
  intros [_ Hu] Hx Hy Heq.
  apply list_elem_of_lookup in Hx as [i Hi], Hy as [j Hj].
  assert (i = j) as ->; [|congruence].
  apply (NoDup_lookup _ i j (inviteuid x) Hu);
    rewrite list_lookup_fmap; [rewrite Hi|rewrite Hj]; simpl; congruence.
Qed.

Lemma rows_for_userid_insert r rows :
  rows_for_userid (userid r) (insert_or_replace r rows) = [r].
Proof.
  unfold rows_for_userid, insert_or_replace.
  rewrite filter_app, filter_cons_True, filter_nil by done.
  rewrite filter_none; [done|].
  intros x Hx. apply list_elem_of_filter in Hx as [[? ?] _]. congruence.
Qed.

Lemma select_order_by_userid_perm rows :
  select_order_by_userid rows ≡ₚ rows.
Proof. apply merge_sort_Permutation. Qed.

Lemma select_order_by_userid_sorted rows :
  Sorted userid_le (select_order_by_userid rows).
Proof.
  apply (Sorted_merge_sort _).
Qed.

End table_facts.

(** ** Running the state monad *)

Lemma foldM_cons {A S} (body : A → S → M S) x l s w :
  foldM body (x :: l) s w = foldM body l (body x s w).1 (body x s w).2.
Proof. simpl. unfold mbind, M_bind. by destruct (body x s w). Qed.

(** A loop whose body changes the accumulator and the state independently is
    a pair of folds. *)
Lemma foldM_split {A S} (body : A → S → M S) (f : A → S → S)
    (g : A → World → World) :
  (∀ a s w, body a s w = (f a s, g a w)) →
  ∀ l s w, foldM body l s w
           = (foldl (λ s a, f a s) s l, foldl (λ w a, g a w) w l).
Proof.
  intros Hbody l. induction l as [|a l IH]; intros s w; [done|].
  rewrite foldM_cons, Hbody. simpl. apply IH.
Qed.

Lemma foldl_inv {A B} (P : B → Prop) (g : B → A → B) l b :
  (∀ a b, a ∈ l → P b → P (g b a)) → P b → P (foldl g b l).
Proof.
  revert b. induction l as [|a l IH]; intros b Hg Hb; [done|].
  simpl. apply IH.
  - intros a' b' Ha'. apply Hg. by right.
  - apply Hg; [by left|done].
Qed.

Lemma elem_of_add_user u b sets x :
  (x ∈ (add_user u b sets).1 ↔ x ∈ sets.1 ∨ (x = u ∧ b = true))
  ∧ (x ∈ (add_user u b sets).2 ↔ x ∈ sets.2 ∨ (x = u ∧ b = false)).
Proof.
  unfold add_user. destruct b; simpl;
    rewrite elem_of_union, elem_of_singleton; split; split;
    intros H; destruct_or?; destruct_and?; auto; congruence.
Qed.

Lemma elem_of_tally result us sets x :
  (x ∈ (tally result us sets).1 ↔
     x ∈ sets.1 ∨ (x ∈ us ∧ result x = true))
  ∧ (x ∈ (tally result us sets).2 ↔
     x ∈ sets.2 ∨ (x ∈ us ∧ result x = false)).
Proof.
  unfold tally. revert sets.
  induction us as [|u us IH]; intros sets; simpl.
  - split; (split; [by left|]); intros [?|[H _]]; try done;
      by apply not_elem_of_nil in H.
  - destruct (IH (add_user u (result u) sets)) as [-> ->].
    destruct (elem_of_add_user u (result u) sets x) as [-> ->].
    setoid_rewrite elem_of_cons.
    clear IH.
    split; split; intros H; destruct_or?; destruct_and?; destruct_or?;
      subst; auto.
Qed.

Section mixin_facts.
Import InvitesTable.
Variable env : Env.

Lemma inviteUserToShare_run u ace s w :
  inviteUserToShare env u ace s w = (resolves env u, after_set env u ace s w).
Proof.
  unfold inviteUserToShare, after_set, resolves.
  destruct (validUserIDForShare env u) as [u'|]; [|done].
  rewrite bool_decide_eq_true_2 by eauto. done.
Qed.

Lemma inviteUserUpdateToShare_run u old ace s w :
  inviteUserUpdateToShare env u old ace s w
  = (resolves env u, after_set env u ace s w).
Proof.
  unfold inviteUserUpdateToShare, after_set, resolves.
  destruct (validUserIDForShare env u) as [u'|]; [|done].
  rewrite bool_decide_eq_true_2 by eauto. done.
Qed.

Lemma uninviteUserToShare_run u ace w :
  uninviteUserToShare u ace w = (true, after_uninvite u w).
Proof. done. Qed.

Lemma remove_phase_run d sets w :
  remove_phase env d sets w
  = (tally (λ _, true) (keys env d) sets,
     foldl (λ w kv, after_uninvite kv.1 w) w (iteritems env _ d)).
Proof.
  unfold remove_phase, tally, keys. rewrite foldl_fmap.
  apply (foldM_split _ (λ kv, add_user kv.1 true)
           (λ kv, after_uninvite kv.1)).
  by intros [u ace] s w'.
Qed.

Lemma set_phase_run d sets w :
  set_phase env d sets w
  = (tally (resolves env) (keys env d) sets,
     foldl (λ w kv, after_set env kv.1 kv.2.1 kv.2.2 w) w
           (iteritems env _ d)).
Proof.
  unfold set_phase, tally, keys. rewrite foldl_fmap.
  apply (foldM_split _ (λ kv, add_user kv.1 (resolves env kv.1))
           (λ kv, after_set env kv.1 kv.2.1 kv.2.2)).
  intros [u [ace s]] sets' w'. unfold mbind, M_bind.
  by rewrite inviteUserToShare_run.
Qed.

Lemma update_phase_run d sets w :
  update_phase env d sets w
  = (tally (resolves env) (keys env d) sets,
     foldl (λ w kv, after_set env kv.1 kv.2.1.2 kv.2.2 w) w
           (iteritems env _ d)).
Proof.
  unfold update_phase, tally, keys. rewrite foldl_fmap.
  apply (foldM_split _ (λ kv, add_user kv.1 (resolves env kv.1))
           (λ kv, after_set env kv.1 kv.2.1.2 kv.2.2)).
  intros [u [[old ace] s]] sets' w'. unfold mbind, M_bind.
  by rewrite inviteUserUpdateToShare_run.
Qed.

End mixin_facts.

(** ** The loop of [validateInvites] *)

Section sweep_facts.
Import InvitesTable.
Variable env : Env.

Lemma validateInvites_run w :
  validateInvites env w
  = (tt, foldl (λ w r, sweep_step env r w) (selected w)
               (select_order_by_userid (INVITE w))).
Proof.
  unfold validateInvites, mbind, M_bind, InvitesDatabase.allRecords. simpl.
  rewrite (foldM_split _ (λ _ s, s) (sweep_step env)).
  - f_equal. by induction (select_order_by_userid (INVITE w)).
  - intros r [] w'. unfold sweep_step, needs_invalid.
    by destruct (decide _).
Qed.

Lemma mark_userid r : userid (mark env r) = userid r.
Proof. unfold mark. by destruct (decide _). Qed.

Lemma mark_inviteuid r : inviteuid (mark env r) = inviteuid r.
Proof. unfold mark. by destruct (decide _). Qed.

Lemma mark_valid r :
  validUserIDForShare env (userid (mark env r)) = None →
  state (mark env r) = "INVALID".
Proof.
  unfold mark, needs_invalid. destruct (decide _) as [|Hn]; [done|].
  intros Hv. destruct (decide (state r = "INVALID")); [done|].
  destruct Hn. by split.
Qed.

Lemma mark_resolved r :
  validUserIDForShare env (userid r) ≠ None → mark env r = r.
Proof.
  unfold mark, needs_invalid. destruct (decide _) as [[? _]|]; done.
Qed.

Lemma sweep_step_rows r w :
  unique (INVITE w) → r ∈ INVITE w →
  unique (INVITE (sweep_step env r w))
  ∧ ∀ x, x ∈ INVITE (sweep_step env r w) ↔
         ∃ y, y ∈ INVITE w ∧ x = (if decide (y = r) then mark env y else y).
Proof.
  intros Hu Hr. unfold sweep_step, mark.
  destruct (decide (needs_invalid env r)) as [Hn|Hn]; simpl.
  - split; [by apply unique_insert_or_replace|].
    intros x. rewrite elem_of_insert_or_replace. simpl. split.
    + intros [->|(Hx & Hxu & Hxi)].
      * exists r. split; [done|]. by rewrite !decide_True.
      * exists x. split; [done|]. rewrite decide_False; [done|].
        intros ->. simpl in *. congruence.
    + intros (y & Hy & ->). destruct (decide (y = r)) as [->|Hne].
      * left. by rewrite decide_True.
      * right. split; [done|].
        split; intros Heq; apply Hne.
        -- by apply (unique_userid (INVITE w)).
        -- by apply (unique_inviteuid (INVITE w)).
  - split; [done|]. intros x. split.
    + intros Hx. exists x. split; [done|].
      destruct (decide (x = r)) as [->|]; [|done]. by rewrite decide_False.
    + intros (y & Hy & ->).
      destruct (decide (y = r)) as [->|]; [|done]. by rewrite decide_False.
Qed.

Lemma mark_settled r : ¬ needs_invalid env (mark env r).
Proof.
  unfold mark. destruct (decide (needs_invalid env r)) as [Hn|Hn]; [|done].
  unfold needs_invalid. simpl. by intros [_ ?].
Qed.

Lemma mark_mark r : mark env (mark env r) = mark env r.
Proof.
  unfold mark at 1. rewrite decide_False; [done|apply mark_settled].
Qed.

Lemma sweep_rows records w :
  unique (INVITE w) → NoDup records → (∀ r, r ∈ records → r ∈ INVITE w) →
  unique (INVITE (foldl (λ w r, sweep_step env r w) w records))
  ∧ ∀ x, x ∈ INVITE (foldl (λ w r, sweep_step env r w) w records) ↔
         ∃ y, y ∈ INVITE w
              ∧ x = (if decide (y ∈ records) then mark env y else y).
Proof.
  revert w. induction records as [|r records IH]; intros w Hu Hnd Hsub.
  - simpl. split; [done|]. intros x. split.
    + intros Hx. exists x. split; [done|].
      destruct (decide (x ∈ [])) as [H|]; [|done]. by apply not_elem_of_nil in H.
    + intros (y & Hy & ->).
      destruct (decide (y ∈ [])) as [H|]; [|done]. by apply not_elem_of_nil in H.
  - simpl. apply NoDup_cons in Hnd as [Hr Hnd].
    destruct (sweep_step_rows r w Hu) as [Hu1 Hrows1]; [apply Hsub; by left|].
    destruct (IH (sweep_step env r w) Hu1 Hnd) as [Hu2 Hrows2].
    { intros r' Hr'. apply Hrows1. exists r'. split; [apply Hsub; by right|].
      rewrite decide_False; [done|]. by intros ->. }
    split; [done|]. intros x. rewrite Hrows2. split.
    + intros (y & Hy & ->). apply Hrows1 in Hy as (z & Hz & ->).
      exists z. split; [done|].
      destruct (decide (z = r)) as [->|Hne].
      * rewrite (decide_True (P:=r ∈ r :: records)) by by left.
        destruct (decide (mark env r ∈ records)); [apply mark_mark|done].
      * destruct (decide (z ∈ records)) as [Hin|Hin].
        -- rewrite decide_True; [done|by right].
        -- rewrite decide_False; [done|].
           intros [->|?]%elem_of_cons; done.
    + intros (z & Hz & ->).
      exists (if decide (z = r) then mark env z else z).
      split; [apply Hrows1; eauto|].
      destruct (decide (z = r)) as [->|Hne].
      * rewrite (decide_True (P:=r ∈ r :: records)) by by left.
        destruct (decide (mark env r ∈ records)); [by rewrite mark_mark|done].
      * destruct (decide (z ∈ records)) as [Hin|Hin].
        -- rewrite decide_True; [done|by right].
        -- rewrite decide_False; [done|].
           intros [->|?]%elem_of_cons; done.
Qed.

(** The table after [validateInvites]: every row replaced by its [mark]. *)
Lemma validateInvites_rows w :
  unique (INVITE w) →
  unique (INVITE (validateInvites env w).2)
  ∧ ∀ x, x ∈ INVITE (validateInvites env w).2 ↔
         ∃ y, y ∈ INVITE w ∧ x = mark env y.
Proof.
  intros Hu. rewrite validateInvites_run. simpl.
  pose proof (select_order_by_userid_perm (INVITE w)) as Hperm.
  destruct (sweep_rows (select_order_by_userid (INVITE w)) (selected w))
    as [Hu' Hrows]; [done| |by intros r; rewrite Hperm|].
  { rewrite Hperm. destruct Hu as [Hu _]. by apply NoDup_fmap_1 in Hu. }
  split; [done|]. intros x. rewrite Hrows. simpl.
  split; intros (y & Hy & ->); exists y; (split; [done|]).
  - rewrite decide_True; [done|by rewrite Hperm].
  - rewrite decide_True; [done|by rewrite Hperm].
Qed.

Lemma sweep_nothing records w :
  (∀ r, r ∈ records → ¬ needs_invalid env r) →
  foldl (λ w r, sweep_step env r w) w records = w.
Proof.
  induction records as [|r records IH]; intros H; [done|]. simpl.
  unfold sweep_step at 2. rewrite decide_False by (apply H; by left).
  apply IH. intros r' Hr'. apply H. by right.
Qed.

Lemma validateInvites_settled w :
  (∀ r, r ∈ INVITE w → ¬ needs_invalid env r) →
  validateInvites env w = (tt, selected w).
Proof.
  intros H. rewrite validateInvites_run. f_equal. apply sweep_nothing.
  intros r Hr. apply H.
  by rewrite <-(select_order_by_userid_perm (INVITE w)).
Qed.

End sweep_facts.

(** ** The dictionaries of a batch *)

Section dict_facts.
Variable env : Env.
Hypothesis Hiter : iteration_ok env.

Lemma elem_of_iteritems {V} (d : gmap string V) k v :
  (k, v) ∈ iteritems env V d ↔ d !! k = Some v.
Proof. rewrite (Hiter V d). apply elem_of_map_to_list. Qed.

Lemma elem_of_keys {V} (d : gmap string V) k :
  k ∈ keys env d ↔ is_Some (d !! k).
Proof.
  unfold keys. rewrite list_elem_of_fmap. split.
  - intros ([k' v] & -> & Hkv). apply elem_of_iteritems in Hkv. eauto.
  - intros [v Hv]. exists (k, v). split; [done|]. by apply elem_of_iteritems.
Qed.

Lemma NoDup_keys {V} (d : gmap string V) : NoDup (keys env d).
Proof.
  unfold keys. rewrite (Hiter V d). apply NoDup_fst_map_to_list.
Qed.

Lemma NoDup_iteritems {V} (d : gmap string V) : NoDup (iteritems env V d).
Proof. rewrite (Hiter V d). apply NoDup_map_to_list. Qed.

End dict_facts.

Lemma move_to_update_lookup us (sd : SetDict) (rd : RemoveDict) (ud : UpdateDict) :
  NoDup us → (∀ u, u ∈ us → is_Some (sd !! u) ∧ is_Some (rd !! u)) →
  ∃ sd' rd' ud',
    move_to_update us sd rd ud = inr (sd', rd', ud')
    ∧ ∀ k, sd' !! k = (if decide (k ∈ us) then None else sd !! k)
         ∧ rd' !! k = (if decide (k ∈ us) then None else rd !! k)
         ∧ ud' !! k = (if decide (k ∈ us) then collapsed sd rd k else ud !! k).
Proof.
  revert sd rd ud. induction us as [|u us IH]; intros sd rd ud Hnd Hin.
  - exists sd, rd, ud. split; [done|]. intros k.
    destruct (decide (k ∈ [])) as [H|]; [|done]. by apply not_elem_of_nil in H.
  - apply NoDup_cons in Hnd as [Hu Hnd]. simpl.
    destruct (Hin u) as [[[newACL s] Hs] [removeACL Hr]]; [by left|].
    rewrite Hs, Hr.
    destruct (IH (delete u sd) (delete u rd)
                (<[u:=(removeACL, newACL, s)]> ud) Hnd)
      as (sd' & rd' & ud' & Heq & Hlook).
    { intros u' Hu'. assert (u ≠ u') by (by intros ->).
      rewrite !lookup_delete_ne by done. apply Hin. by right. }
    exists sd', rd', ud'. split; [done|]. intros k.
    destruct (Hlook k) as (-> & -> & ->).
    assert (k ∈ u :: us ↔ k = u ∨ k ∈ us) as Hcons by apply elem_of_cons.
    unfold collapsed.
    destruct (decide (k = u)) as [->|Hne]; repeat case_decide;
      rewrite ?lookup_delete_eq, ?lookup_insert_eq;
      rewrite ?lookup_delete_ne, ?lookup_insert_ne by done;
      rewrite ?Hs, ?Hr; try done; exfalso; tauto.
Qed.

Section split_facts.
Variable env : Env.
Hypothesis Hiter : iteration_ok env.

Lemma elem_of_sameUserid (sd : SetDict) (rd : RemoveDict) k :
  k ∈ sameUseridInRemoveAndSet env sd rd ↔
  is_Some (sd !! k) ∧ is_Some (rd !! k).
Proof.
  unfold sameUseridInRemoveAndSet.
  rewrite list_elem_of_filter, elem_of_keys by done. tauto.
Qed.

(** The special case never raises, and moves exactly the users that are
    both removed and set. *)
Lemma split_dicts_lookup children (sd0 : SetDict) (rd0 : RemoveDict) :
  read_items children ∅ ∅ = inr (sd0, rd0) →
  ∃ sd rd ud,
    split_dicts env children = inr (sd, rd, ud)
    ∧ ∀ k, sd !! k = (if decide (is_Some (rd0 !! k)) then None else sd0 !! k)
         ∧ rd !! k = (if decide (is_Some (sd0 !! k)) then None else rd0 !! k)
         ∧ ud !! k = collapsed sd0 rd0 k.
Proof.
  intros Hread. unfold split_dicts. rewrite Hread.
  destruct (move_to_update_lookup (sameUseridInRemoveAndSet env sd0 rd0)
              sd0 rd0 ∅) as (sd & rd & ud & Heq & Hlook).
  { apply NoDup_filter, NoDup_keys, Hiter. }
  { intros u. by rewrite elem_of_sameUserid. }
  exists sd, rd, ud. split; [done|]. intros k.
  destruct (Hlook k) as (-> & -> & ->).
  unfold collapsed.
  destruct (decide (k ∈ _)) as [Hk|Hk];
    rewrite elem_of_sameUserid in Hk.
  - destruct Hk as [Hs Hr]. by rewrite !decide_True.
  - rewrite lookup_empty.
    destruct (rd0 !! k) as [a|] eqn:Hr, (sd0 !! k) as [[n s]|] eqn:Hs;
      repeat case_decide; try done;
      try (exfalso; apply Hk; split; eauto; done);
      try (exfalso; match goal with H : is_Some None |- _ =>
                                      by destruct H end).
Qed.

Lemma split_dicts_error children e :
  read_items children ∅ ∅ = inl e → split_dicts env children = inl e.
Proof. intros H. unfold split_dicts. by rewrite H. Qed.

End split_facts.

(** ** One batch *)

Section batch_facts.
Import InvitesTable.
Variable env : Env.

Lemma apply_batch_run sd rd ud w :
  apply_batch env sd rd ud w
  = (outcome env sd rd ud,
     (validateInvites env (mutated env sd rd ud w)).2).
Proof.
  unfold apply_batch, mbind, M_bind.
  rewrite remove_phase_run, set_phase_run, update_phase_run.
  fold (removed env rd w). fold (was_set env sd (removed env rd w)).
  fold (updated env ud (was_set env sd (removed env rd w))).
  fold (mutated env sd rd ud w). fold (outcome env sd rd ud).
  by destruct (validateInvites env (mutated env sd rd ud w)) as [[] w'].
Qed.

Lemma _processInviteDoc_run children sd rd ud w :
  split_dicts env children = inr (sd, rd, ud) →
  _processInviteDoc env children w
  = (inr (report (outcome env sd rd ud).1 (outcome env sd rd ud).2),
     (validateInvites env (mutated env sd rd ud w)).2).
Proof.
  intros H. unfold _processInviteDoc. rewrite H.
  unfold mbind, M_bind. by rewrite apply_batch_run.
Qed.

Lemma _processInviteDoc_error children e w :
  split_dicts env children = inl e →
  _processInviteDoc env children w = (inl e, w).
Proof. intros H. unfold _processInviteDoc. by rewrite H. Qed.

Lemma unique_after_uninvite u w :
  unique (INVITE w) → unique (INVITE (after_uninvite u w)).
Proof. apply unique_filter. Qed.

Lemma unique_after_set u ace s w :
  unique (INVITE w) → unique (INVITE (after_set env u ace s w)).
Proof.
  unfold after_set. destruct (validUserIDForShare env u); [|done].
  apply unique_insert_or_replace.
Qed.

Lemma unique_mutated sd rd ud w :
  unique (INVITE w) → unique (INVITE (mutated env sd rd ud w)).
Proof.
  intros Hu. unfold mutated, updated, was_set, removed.
  repeat (apply (foldl_inv (λ w, unique (INVITE w)));
          [intros; by (apply unique_after_set || apply unique_after_uninvite)|]).
  done.
Qed.

End batch_facts.

(** ** Sample data *)

Lemma sample_iteration_ok : iteration_ok sample_env.
Proof. by intros V d. Qed.

Lemma sample_uuid4_inj : Inj (=) (=) sample_uuid4.
Proof.
  intros n. induction n as [|n IH]; intros [|m] H; simpl in *;
    try done; f_equal; apply IH; congruence.
Qed.

Lemma sample_world_unique : InvitesTable.unique (INVITE sample_world).
Proof. split; apply (bool_decide_unpack _); by vm_compute. Qed.

(** ** The validation sweep *)

(** C3. After a batch that was read without error, with [wm] the state the
    three loops leave and [w'] the state the handler returns: [w'] is [wm]
    after [validateInvites]; every row of [w'] whose userid does not resolve
    has state INVALID; every row of [wm] whose userid resolves is a row of
    [w'], unchanged; every row of [w'] that is not INVALID was a row of [wm];
    and running [validateInvites] again only executes its [select] and
    leaves the table as it is. *)
Theorem validation_sweep env children sd rd ud w :
  InvitesTable.unique (INVITE w) →
  split_dicts env children = inr (sd, rd, ud) →
  let wm := mutated env sd rd ud w in
  let w' := (_processInviteDoc env children w).2 in
  w' = (validateInvites env wm).2
  ∧ (∀ x, x ∈ INVITE w' →
          validUserIDForShare env (userid x) = None → state x = "INVALID")
  ∧ (∀ x, x ∈ INVITE wm →
          validUserIDForShare env (userid x) ≠ None → x ∈ INVITE w')
  ∧ (∀ x, x ∈ INVITE w' → state x ≠ "INVALID" → x ∈ INVITE wm)
  ∧ validateInvites env w' = (tt, selected w')
  ∧ INVITE (validateInvites env w').2 = INVITE w'.
Proof.
  intros Hu Hsplit wm w'. subst w'.
  rewrite (_processInviteDoc_run env children sd rd ud w Hsplit). simpl.
  pose proof (unique_mutated env sd rd ud w Hu) as Hum. fold wm in Hum |- *.
  destruct (validateInvites_rows env wm Hum) as [Hu' Hrows].
  assert (validateInvites env (validateInvites env wm).2
          = (tt, selected (validateInvites env wm).2)) as Hagain.
  { apply validateInvites_settled. intros r Hr.
    apply Hrows in Hr as (y & _ & ->). apply mark_settled. }
  split; [done|]. split; [|split; [|split; [|split]]].
  - intros x Hx. apply Hrows in Hx as (y & _ & ->). apply mark_valid.
  - intros x Hx Hres. apply Hrows. exists x. split; [done|].
    by rewrite mark_resolved.
  - intros x Hx Hst. apply Hrows in Hx as (y & Hy & ->).
    unfold mark in *. by destruct (decide (needs_invalid env y)).
  - done.
  - by rewrite Hagain.
Qed.

Lemma validation_sweep_witness :
  let children := [invite_set "mailto:alice@example.com" ReadWriteAccess "lunch";
                   invite_remove "nobody"] in
  let sd : SetDict := {["mailto:alice@example.com" := (ReadWriteAccess, "lunch")]} in
  let rd : RemoveDict := {["nobody" := None]} in
  let wm := mutated sample_env sd rd ∅ sample_world in
  let w' := (_processInviteDoc sample_env children sample_world).2 in
  (∀ x, x ∈ INVITE w' →
        validUserIDForShare sample_env (userid x) = None → state x = "INVALID")
  ∧ INVITE (validateInvites sample_env w').2 = INVITE w'.
Proof.
  intros children sd rd wm w'.
  destruct (validation_sweep sample_env children sd rd ∅ sample_world)
    as (_ & H1 & _ & _ & _ & H2).
  - exact sample_world_unique.
  - reflexivity.
  - split; [exact H1|exact H2].
Defined.

(** ** Uniqueness of the userid *)

Lemma unique_mutate m w :
  InvitesTable.unique (INVITE w) → InvitesTable.unique (INVITE (mutate m w).2).
Proof.
  destruct m; simpl.
  - apply unique_insert_or_replace.
  - apply unique_filter.
  - apply unique_filter.
Qed.

Lemma unique_mutations ms w :
  InvitesTable.unique (INVITE w) →
  InvitesTable.unique (INVITE (foldM (λ m _, mutate m) ms tt w).2).
Proof.
  revert w. induction ms as [|m ms IH]; intros w Hu; [done|].
  rewrite foldM_cons. destruct (mutate m w) as [[] w1] eqn:Hm. simpl.
  apply IH. replace w1 with (mutate m w).2 by by rewrite Hm.
  by apply unique_mutate.
Qed.

(** C5. In every store reached from [create()] by any sequence of
    [addOrUpdateRecord], [removeRecordForUserID] and
    [removeRecordForInviteUID], no two rows have the same userid (nor the
    same invite uid); [addOrUpdateRecord] then leaves exactly one row for
    the userid of its record, the record itself with all its fields, whatever
    row that userid had before, and every other row it keeps is a row the
    store already had. *)
Theorem userid_unique_upsert (ms : list Mutation) (record : Invite) :
  let w := (foldM (λ m _, mutate m) ms tt created).2 in
  let w' := (InvitesDatabase.addOrUpdateRecord record w).2 in
  NoDup (userid <$> INVITE w)
  ∧ NoDup (userid <$> INVITE w')
  ∧ rows_for_userid (userid record) (INVITE w') = [record]
  ∧ (∀ x, x ∈ INVITE w' → x ≠ record →
          x ∈ INVITE w ∧ userid x ≠ userid record).
Proof.
  intros w w'.
  assert (InvitesTable.unique (INVITE w)) as Hu
    by apply unique_mutations, unique_nil.
  split; [apply Hu|]. split; [|split].
  - apply (unique_insert_or_replace record) in Hu. apply Hu.
  - apply rows_for_userid_insert.
  - intros x Hx Hne. subst w'. simpl in Hx.
    apply elem_of_insert_or_replace in Hx as [->|(? & ? & _)]; done.
Qed.

(** ** A successful set starts the invite afresh *)

Lemma sample_world_uids : uids_drawn_before sample_env sample_world.
Proof.
  intros r Hr. simpl in Hr.
  apply elem_of_cons in Hr as [->|Hr]; [exists 0; split; [simpl; lia|done]|].
  apply elem_of_cons in Hr as [->|Hr]; [exists 1; split; [simpl; lia|done]|].
  by apply not_elem_of_nil in Hr.
Qed.

Lemma uids_drawn_before_after_set env u ace s w :
  uids_drawn_before env w → uids_drawn_before env (after_set env u ace s w).
Proof.
  intros Hw. unfold after_set.
  destruct (validUserIDForShare env u) as [n|]; [|done].
  intros r Hr. simpl in Hr.
  apply elem_of_insert_or_replace in Hr as [->|(Hr & _)].
  - exists (uuids_drawn w). simpl. split; [lia|done].
  - destruct (Hw r Hr) as (k & Hk & ->). exists k. simpl. split; [lia|done].
Qed.

(** C10. When the user id of a set (or of an update) resolves to the
    principal URL [n], the call returns true and the table then holds
    exactly one row for [n]: the value [uuid4] returned at this call, [n],
    the new access, state NEEDS-ACTION and the new summary, whatever the
    state of the row [n] had before.  When [uuid4] never repeats and every
    stored uid came from it, the new uid differs from every uid stored before
    the call, and the table still has that property afterwards. *)
Theorem set_starts_afresh env u old ace s w n :
  validUserIDForShare env u = Some n →
  Inj (=) (=) (uuid4 env) →
  uids_drawn_before env w →
  let fresh := mkInvite (uuid4 env (uuids_drawn w)) n
                        (inviteAccessMapFromXML ace) "NEEDS-ACTION" s in
  let w' := (inviteUserToShare env u ace s w).2 in
  (inviteUserToShare env u ace s w).1 = true
  ∧ inviteUserUpdateToShare env u old ace s w = inviteUserToShare env u ace s w
  ∧ rows_for_userid n (INVITE w') = [fresh]
  ∧ (∀ x, x ∈ INVITE w → inviteuid x ≠ inviteuid fresh)
  ∧ uids_drawn_before env w'.
Proof.
  intros Hn Hinj Hw fresh w'. subst w'.
  rewrite inviteUserUpdateToShare_run, inviteUserToShare_run. simpl.
  split; [|split; [done|split; [|split]]].
  - unfold resolves. rewrite Hn. apply bool_decide_eq_true_2. eauto.
  - unfold after_set. rewrite Hn. simpl.
    apply (rows_for_userid_insert fresh).
  - intros x Hx Heq. destruct (Hw x Hx) as (k & Hk & Hxk).
    simpl in Heq. rewrite Hxk in Heq. apply Hinj in Heq. lia.
  - by apply uids_drawn_before_after_set.
Qed.

Lemma set_starts_afresh_witness :
  let w' := (inviteUserToShare sample_env "mailto:bob@example.com"
               ReadWriteAccess "again" sample_world).2 in
  rows_for_userid "/principals/users/bob" (INVITE sample_world)
  = [mkInvite "u0" "/principals/users/bob" "read-only" "ACCEPTED" "team"]
  ∧ rows_for_userid "/principals/users/bob" (INVITE w')
    = [mkInvite "uu0" "/principals/users/bob" "read-write" "NEEDS-ACTION"
                "again"].
Proof.
  split; [reflexivity|].
  apply (set_starts_afresh sample_env "mailto:bob@example.com" None
           ReadWriteAccess "again" sample_world "/principals/users/bob").
  - reflexivity.
  - exact sample_uuid4_inj.
  - exact sample_world_uids.
Defined.

(** ** Sets are validated, removals are not *)

Section outcome_facts.
Variable env : Env.
Hypothesis Hiter : iteration_ok env.

Lemma split_dicts_inv children (sd : SetDict) (rd : RemoveDict)
    (ud : UpdateDict) :
  split_dicts env children = inr (sd, rd, ud) →
  ∃ sd0 rd0,
    read_items children ∅ ∅ = inr (sd0, rd0)
    ∧ ∀ k, sd !! k = (if decide (is_Some (rd0 !! k)) then None else sd0 !! k)
         ∧ rd !! k = (if decide (is_Some (sd0 !! k)) then None else rd0 !! k)
         ∧ ud !! k = collapsed sd0 rd0 k.
Proof.
  intros Hsplit.
  destruct (read_items children ∅ ∅) as [e|[sd0 rd0]] eqn:Hread.
  - by rewrite (split_dicts_error env children e Hread) in Hsplit.
  - destruct (split_dicts_lookup env Hiter children sd0 rd0 Hread)
      as (sd' & rd' & ud' & Heq & Hlook).
    rewrite Heq in Hsplit. injection Hsplit as <- <- <-. eauto.
Qed.

(** After the special case no user is in two of the dictionaries. *)
Lemma split_dicts_disjoint children (sd : SetDict) (rd : RemoveDict)
    (ud : UpdateDict) k :
  split_dicts env children = inr (sd, rd, ud) →
  (is_Some (rd !! k) → sd !! k = None ∧ ud !! k = None)
  ∧ (is_Some (sd !! k) → ud !! k = None).
Proof.
  intros Hsplit.
  destruct (split_dicts_inv children sd rd ud Hsplit)
    as (sd0 & rd0 & _ & Hlook).
  destruct (Hlook k) as (-> & -> & ->). unfold collapsed.
  destruct (rd0 !! k) as [a|], (sd0 !! k) as [[n s]|];
    repeat case_decide; split; intros [? ?]; try done; exfalso;
    match goal with H : ¬ is_Some (Some _) |- _ => apply H; eauto end.
Qed.

Lemma elem_of_outcome (sd : SetDict) (rd : RemoveDict) (ud : UpdateDict) x :
  (x ∈ (outcome env sd rd ud).1 ↔
     is_Some (rd !! x)
     ∨ ((is_Some (sd !! x) ∨ is_Some (ud !! x)) ∧ resolves env x = true))
  ∧ (x ∈ (outcome env sd rd ud).2 ↔
     (is_Some (sd !! x) ∨ is_Some (ud !! x)) ∧ resolves env x = false).
Proof.
  unfold outcome.
  destruct (elem_of_tally (resolves env) (keys env ud)
    (tally (resolves env) (keys env sd)
       (tally (λ _, true) (keys env rd) (∅, ∅))) x) as [-> ->].
  destruct (elem_of_tally (resolves env) (keys env sd)
       (tally (λ _, true) (keys env rd) (∅, ∅)) x) as [-> ->].
  destruct (elem_of_tally (λ _, true) (keys env rd) (∅, ∅) x) as [-> ->].
  rewrite !elem_of_keys by done. simpl.
  split; split; intros H; destruct_or?; destruct_and?;
    try (by apply not_elem_of_empty in H); try done; auto.
  all: destruct_or?; auto.
Qed.

End outcome_facts.

Lemma filter_all (P : Invite → Prop) `{∀ x, Decision (P x)}
    (rows : list Invite) :
  (∀ x, x ∈ rows → P x) → filter P rows = rows.
Proof.
  induction rows as [|y rows IH]; intros HP; [done|].
  rewrite filter_cons_True by (apply HP; by left).
  f_equal. apply IH. intros x Hx. apply HP. by right.
Qed.

Lemma resolves_false env u :
  validUserIDForShare env u = None ↔ resolves env u = false.
Proof.
  unfold resolves. destruct (validUserIDForShare env u) as [n|].
  - split; [done|]. intros H. apply bool_decide_eq_false_1 in H.
    destruct H. by eexists.
  - split; [|done]. intros _. apply bool_decide_eq_false_2. by intros [? ?].
Qed.

(** C2, as the code has it.  A set or an update whose user id does not
    resolve returns false and leaves the state as it was: no statement is
    executed and no row written; in a batch the user of every [InviteSet]
    that does not resolve is in [badusers] and not in [okusers].
    [uninviteUserToShare] does not look the user id up: for any user id it
    executes the one [delete], returns true, and leaves the table unchanged
    when no row has that userid; in a batch the user of every [InviteRemove]
    that is not also the user of an [InviteSet] is in [okusers] and not in
    [badusers].  The user of an [InviteRemove] that is also the user of an
    [InviteSet] is not in the remove dictionary any more: it is updated, and
    is in [okusers] when it resolves and in [badusers] when it does not. *)
Theorem sets_validate_removes_do_not env children (sd0 : SetDict)
    (rd0 : RemoveDict) sd rd ud w :
  iteration_ok env →
  read_items children ∅ ∅ = inr (sd0, rd0) →
  split_dicts env children = inr (sd, rd, ud) →
  let okusers := (apply_batch env sd rd ud w).1.1 in
  let badusers := (apply_batch env sd rd ud w).1.2 in
  (∀ u old ace s w0, validUserIDForShare env u = None →
     inviteUserToShare env u ace s w0 = (false, w0)
     ∧ inviteUserUpdateToShare env u old ace s w0 = (false, w0))
  ∧ (∀ u, is_Some (sd0 !! u) →
          validUserIDForShare env u = None → u ∈ badusers ∧ u ∉ okusers)
  ∧ (∀ u ace w0,
       uninviteUserToShare u ace w0
       = (true, mkWorld (filter (λ x, userid x ≠ u) (INVITE w0))
                        (executed w0 ++ [DeleteWhereUserid u])
                        (uuids_drawn w0))
       ∧ ((∀ x, x ∈ INVITE w0 → userid x ≠ u) →
          INVITE (uninviteUserToShare u ace w0).2 = INVITE w0))
  ∧ (∀ u, is_Some (rd0 !! u) → sd0 !! u = None →
          is_Some (rd !! u) ∧ u ∈ okusers ∧ u ∉ badusers)
  ∧ (∀ u, is_Some (rd0 !! u) → is_Some (sd0 !! u) →
          rd !! u = None ∧ sd !! u = None ∧ is_Some (ud !! u)
          ∧ (validUserIDForShare env u ≠ None → u ∈ okusers ∧ u ∉ badusers)
          ∧ (validUserIDForShare env u = None → u ∈ badusers ∧ u ∉ okusers)).
Proof.
  intros Hiter Hread Hsplit okusers badusers. subst okusers badusers.
  rewrite apply_batch_run. simpl.
  destruct (split_dicts_lookup env Hiter children sd0 rd0 Hread)
    as (sd' & rd' & ud' & Hsplit' & Hlook).
  rewrite Hsplit in Hsplit'. injection Hsplit' as <- <- <-.
  assert (∀ u, u ∈ (outcome env sd rd ud).1 ↔
               (is_Some (rd0 !! u) ∧ sd0 !! u = None)
               ∨ (is_Some (sd0 !! u) ∧ resolves env u = true)) as Hok.
  { intros u. destruct (elem_of_outcome env Hiter sd rd ud u) as [-> _].
    destruct (Hlook u) as (-> & -> & ->). unfold collapsed.
    destruct (rd0 !! u) as [a|], (sd0 !! u) as [[n s]|];
      repeat case_decide; split;
      try (intros [[? ?]|[[[? ?]|[? ?]] ?]]); try (intros [[[? ?] ?]|[[? ?] ?]]);
      try done; eauto 6. }
  assert (∀ u, u ∈ (outcome env sd rd ud).2 ↔
               is_Some (sd0 !! u) ∧ resolves env u = false) as Hbad.
  { intros u. destruct (elem_of_outcome env Hiter sd rd ud u) as [_ ->].
    destruct (Hlook u) as (-> & _ & ->). unfold collapsed.
    destruct (rd0 !! u) as [a|], (sd0 !! u) as [[n s]|];
      repeat case_decide; split;
      try (intros [[[? ?]|[? ?]] ?]); try (intros [[? ?] ?]);
      try done; eauto 6. }
  split; [|split; [|split; [|split]]].
  - intros u old ace s w0 Hu.
    unfold inviteUserToShare, inviteUserUpdateToShare. by rewrite Hu.
  - intros u Hin Hu. apply resolves_false in Hu.
    split; [by apply Hbad|]. rewrite Hok.
    intros [[_ Hnone]|[_ ?]]; [|congruence].
    rewrite Hnone in Hin. by destruct Hin.
  - intros u ace w0. split; [done|]. intros Hnone. simpl.
    by apply filter_all.
  - intros u Hr Hs. split; [|split].
    + destruct (Hlook u) as (_ & -> & _). rewrite Hs.
      rewrite decide_False; [done|]. by intros [? ?].
    + apply Hok. by left.
    + rewrite Hbad, Hs. by intros [[? ?] _].
  - intros u Hr Hs. destruct (Hlook u) as (Hsd & Hrd & Hud).
    split; [by rewrite Hrd, decide_True|].
    split; [by rewrite Hsd, decide_True|].
    split.
    { rewrite Hud. unfold collapsed.
      destruct Hr as [a ->], Hs as [[n s] ->]. by eexists. }
    split.
    + intros Hres. assert (resolves env u = true) as Hres'.
      { destruct (resolves env u) eqn:E; [done|].
        by apply resolves_false in E. }
      split; [apply Hok; by right|]. rewrite Hbad. intros [_ ?]. congruence.
    + intros Hres. apply resolves_false in Hres.
      split; [by apply Hbad|]. rewrite Hok.
      intros [[_ Hnone]|[_ ?]]; [|congruence].
      rewrite Hnone in Hs. by destruct Hs.
Qed.

Lemma sets_validate_removes_do_not_witness :
  ("nobody" ∈ (apply_batch sample_env
                 {["nobody" := (ReadWriteAccess, "x")]} {["ghost" := None]}
                 {["mailto:bob@example.com" := (None, ReadAccess, "b")]}
                 sample_world).1.2)
  ∧ ("ghost" ∈ (apply_batch sample_env
                  {["nobody" := (ReadWriteAccess, "x")]} {["ghost" := None]}
                  {["mailto:bob@example.com" := (None, ReadAccess, "b")]}
                  sample_world).1.1)
  ∧ ("mailto:bob@example.com"
     ∈ (apply_batch sample_env
          {["nobody" := (ReadWriteAccess, "x")]} {["ghost" := None]}
          {["mailto:bob@example.com" := (None, ReadAccess, "b")]}
          sample_world).1.1).
Proof.
  destruct (sets_validate_removes_do_not sample_env
              [invite_set "nobody" ReadWriteAccess "x"; invite_remove "ghost";
               invite_remove "mailto:bob@example.com";
               invite_set "mailto:bob@example.com" ReadAccess "b"]
              {["nobody" := (ReadWriteAccess, "x");
                "mailto:bob@example.com" := (ReadAccess, "b")]}
              {["ghost" := None; "mailto:bob@example.com" := None]}
              {["nobody" := (ReadWriteAccess, "x")]}
              {["ghost" := None]}
              {["mailto:bob@example.com" := (None, ReadAccess, "b")]}
              sample_world) as (_ & Hbad & _ & Hremoved & Hupdated).
  - exact sample_iteration_ok.
  - reflexivity.
  - reflexivity.
  - split; [|split].
    + apply Hbad; [by eexists|reflexivity].
    + apply Hremoved; [by eexists|reflexivity].
    + apply Hupdated; [by eexists|by eexists|discriminate].
Defined.

(** C2, as the specification states it, fails for a removal of a user that
    the same request also sets: the removal becomes an update, the update is
    refused because the user does not resolve, and the user is in
    [badusers]; the row stored for the user is not deleted. *)
Lemma remove_claim_counterexample :
  ¬ remove_claim sample_env
      [invite_set "/principals/users/carol" ReadAccess "s";
       invite_remove "/principals/users/carol"]
      sample_world
  ∧ rows_for_userid "/principals/users/carol"
      (INVITE (_processInviteDoc sample_env
                 [invite_set "/principals/users/carol" ReadAccess "s";
                  invite_remove "/principals/users/carol"]
                 sample_world).2)
    = [mkInvite "0" "/principals/users/carol" "read-only" "INVALID" "old"].
Proof.
  split; [|reflexivity].
  intros Hclaim.
  destruct (Hclaim {["/principals/users/carol" := (ReadAccess, "s")]}
                   {["/principals/users/carol" := None]}
                   "/principals/users/carol")
    as (sd & rd & ud & Hsplit & _ & Hbad).
  - reflexivity.
  - by eexists.
  - apply Hbad. rewrite apply_batch_run. simpl.
    apply (elem_of_outcome sample_env sample_iteration_ok).
    split; [|reflexivity].
    assert (split_dicts sample_env
              [invite_set "/principals/users/carol" ReadAccess "s";
               invite_remove "/principals/users/carol"]
            = inr (∅, ∅,
                   {["/principals/users/carol" := (None, ReadAccess, "s")]}))
      as Hdicts by reflexivity.
    rewrite Hdicts in Hsplit. injection Hsplit as <- <- <-.
    right. by eexists.
Qed.

(** ** Order of the output *)

Lemma sorted_spec (s : gset string) :
  StronglySorted String.le (sorted s) ∧ NoDup (sorted s)
  ∧ ∀ u, u ∈ sorted s ↔ u ∈ s.
Proof.
  unfold sorted. split; [|split].
  - apply (StronglySorted_merge_sort _).
  - rewrite merge_sort_Permutation. apply NoDup_elements.
  - intros u. rewrite merge_sort_Permutation. apply elem_of_elements.
Qed.

(** C9. [allRecords()] returns the rows of the table ordered by userid.  The
    handler answers [OK] when [badusers] is empty and otherwise a
    multi-status response that lists the members of [okusers] with status OK,
    in ascending order, followed by the members of [badusers] with status
    FORBIDDEN, in ascending order. *)
Theorem ordered_output env children sd rd ud w :
  split_dicts env children = inr (sd, rd, ud) →
  let records := (InvitesDatabase.allRecords w).1 in
  let okusers := (apply_batch env sd rd ud w).1.1 in
  let badusers := (apply_batch env sd rd ud w).1.2 in
  let response := (_processInviteDoc env children w).1 in
  records ≡ₚ INVITE w
  ∧ StronglySorted userid_le records
  ∧ (badusers = ∅ → response = inr (Code OK))
  ∧ (badusers ≠ ∅ →
     ∃ oks bads,
       response = inr (MultiStatusResponse
                         (((λ u, (u, OK)) <$> oks)
                          ++ ((λ u, (u, FORBIDDEN)) <$> bads)))
       ∧ (∀ u, u ∈ oks ↔ u ∈ okusers) ∧ (∀ u, u ∈ bads ↔ u ∈ badusers)
       ∧ NoDup oks ∧ NoDup bads
       ∧ StronglySorted String.le oks ∧ StronglySorted String.le bads).
Proof.
  intros Hsplit records okusers badusers response.
  subst records okusers badusers response.
  rewrite (_processInviteDoc_run env children sd rd ud w Hsplit).
  rewrite apply_batch_run. simpl.
  split; [apply select_order_by_userid_perm|].
  split; [apply (StronglySorted_merge_sort _)|].
  unfold report. split.
  - intros ->. by rewrite decide_False by (by intros ?).
  - intros Hbad. rewrite decide_True by done.
    exists (sorted (outcome env sd rd ud).1), (sorted (outcome env sd rd ud).2).
    destruct (sorted_spec (outcome env sd rd ud).1) as (? & ? & ?).
    destruct (sorted_spec (outcome env sd rd ud).2) as (? & ? & ?).
    done.
Qed.

Example ordered_output_example :
  (_processInviteDoc sample_env
     [invite_set "zoe" ReadAccess "z";
      invite_set "mailto:bob@example.com" ReadAccess "b";
      invite_remove "ghost";
      invite_set "adam" ReadAccess "a"] sample_world).1
  = inr (MultiStatusResponse
           [("ghost", OK); ("mailto:bob@example.com", OK);
            ("adam", FORBIDDEN); ("zoe", FORBIDDEN)])
  ∧ userid <$> (InvitesDatabase.allRecords sample_world).1
    = ["/principals/users/bob"; "/principals/users/carol"].
Proof. split; reflexivity. Qed.

Lemma ordered_output_witness :
  let children := [invite_set "zoe" ReadAccess "z";
                   invite_set "mailto:bob@example.com" ReadAccess "b";
                   invite_remove "ghost";
                   invite_set "adam" ReadAccess "a"] in
  StronglySorted userid_le (InvitesDatabase.allRecords sample_world).1
  ∧ ∃ oks bads,
      (_processInviteDoc sample_env children sample_world).1
      = inr (MultiStatusResponse
               (((λ u, (u, OK)) <$> oks) ++ ((λ u, (u, FORBIDDEN)) <$> bads)))
      ∧ StronglySorted String.le oks ∧ StronglySorted String.le bads.
Proof.
  intros children.
  destruct (ordered_output sample_env children
    {["zoe" := (ReadAccess, "z"); "mailto:bob@example.com" := (ReadAccess, "b");
      "adam" := (ReadAccess, "a")]}
    {["ghost" := None]} ∅ sample_world) as (_ & Hs & _ & Hm);
    [reflexivity|].
  split; [exact Hs|].
  destruct Hm as (oks & bads & Heq & _ & _ & _ & _ & Hoks & Hbads).
  - apply (bool_decide_unpack _). by vm_compute.
  - exists oks, bads. by repeat split.
Defined.

(** ** Malformed batches *)

Lemma last_pcdata_is_Some ch v :
  is_Some (last_pcdata ch v) ↔ is_Some v ∨ ∃ data, PCDATAElement data ∈ ch.
Proof.
  unfold last_pcdata. revert v.
  induction ch as [|x ch IH]; intros v; simpl.
  - split; [by left|]. intros [?|[d Hd]]; [done|].
    by apply not_elem_of_nil in Hd.
  - rewrite IH. setoid_rewrite elem_of_cons. split.
    + intros [Hv|[d Hd]]; [|by eauto].
      destruct x; eauto.
    + intros [Hv|[d [<-|Hd]]]; [|by eauto|by eauto].
      destruct x; eauto.
Qed.

Lemma read_set_items_is_Some children u0 a0 s0 :
  let '(u, a, s) := foldl read_set_item (u0, a0, s0) children in
  (is_Some u ↔ is_Some u0 ∨ has_userid children)
  ∧ (is_Some a ↔ is_Some a0 ∨ has_access children)
  ∧ (is_Some s ↔ is_Some s0 ∨ has_summary children).
Proof.
  revert u0 a0 s0. induction children as [|x children IH]; intros u0 a0 s0.
  - simpl. unfold has_userid, has_access, has_summary.
    repeat split; try (by left);
      intros [?|H]; try done; destruct H as (? & H); try destruct H as (? & H & _);
      by apply not_elem_of_nil in H.
  - simpl.
    assert (∀ u1 a1 s1,
      (is_Some u1 ↔ is_Some u0 ∨ ∃ ch data, x = HRef ch ∧ PCDATAElement data ∈ ch) →
      (is_Some a1 ↔ is_Some a0 ∨ ∃ a, x = Access a) →
      (is_Some s1 ↔ is_Some s0
                   ∨ ∃ ch data, x = InviteSummary ch ∧ PCDATAElement data ∈ ch) →
      let '(u, a, s) := foldl read_set_item (u1, a1, s1) children in
      (is_Some u ↔ is_Some u0 ∨ has_userid (x :: children))
      ∧ (is_Some a ↔ is_Some a0 ∨ has_access (x :: children))
      ∧ (is_Some s ↔ is_Some s0 ∨ has_summary (x :: children))) as Hstep.
    { intros u1 a1 s1 Hu Ha Hs. specialize (IH u1 a1 s1).
      destruct (foldl read_set_item (u1, a1, s1) children) as [[u a] s].
      destruct IH as (-> & -> & ->). rewrite Hu, Ha, Hs.
      unfold has_userid, has_access, has_summary.
      setoid_rewrite elem_of_cons. split; [|split]; naive_solver. }
    destruct x; simpl; apply Hstep; rewrite ?last_pcdata_is_Some;
      naive_solver.
Qed.

Lemma _handleInviteSet_lacks children :
  lacks_mandatory_field children →
  _handleInviteSet children = inl (missing "href")
  ∨ _handleInviteSet children = inl (missing "access")
  ∨ _handleInviteSet children = inl (missing "summary").
Proof.
  intros Hlacks. unfold _handleInviteSet.
  pose proof (read_set_items_is_Some children None None None) as H.
  destruct (foldl read_set_item (None, None, None) children) as [[u a] s].
  destruct H as (Hu & Ha & Hs).
  destruct u as [u|]; [|by left].
  destruct a as [a|]; [|by right; left].
  destruct s as [s|]; [|by right; right].
  exfalso. destruct Hlacks as [H|[H|H]]; apply H.
  - destruct Hu as [[[? ?]|?] _]; eauto; done.
  - destruct Ha as [[[? ?]|?] _]; eauto; done.
  - destruct Hs as [[[? ?]|?] _]; eauto; done.
Qed.

Lemma _handleInviteSet_error children e :
  _handleInviteSet children = inl e → request_error e.
Proof.
  unfold _handleInviteSet, request_error.
  destruct (foldl read_set_item (None, None, None) children) as [[[u|] [a|]] [s|]];
    try (intros [= <-]; eauto; done).
  by destruct (truthy u && truthy s).
Qed.

Lemma _handleInviteRemove_error children e :
  _handleInviteRemove children = inl e → request_error e.
Proof.
  unfold _handleInviteRemove, request_error.
  destruct (foldl _ _ children) as [[u|] acc]; [done|].
  intros [= <-]; eauto.
Qed.

Lemma read_items_error_kind items sd rd e :
  read_items items sd rd = inl e → request_error e.
Proof.
  revert sd rd. induction items as [|x items IH]; intros sd rd; [done|].
  destruct x; simpl; try apply IH.
  - destruct (_handleInviteSet children) as [e'|[[[u a] s]|]] eqn:Hset.
    + intros [= <-]. by apply (_handleInviteSet_error children).
    + apply IH.
    + intros [= <-]. by left.
  - destruct (_handleInviteRemove children) as [e'|[u a]] eqn:Hrem.
    + intros [= <-]. by apply (_handleInviteRemove_error children).
    + apply IH.
Qed.

Lemma read_items_malformed items ch sd rd :
  InviteSet ch ∈ items → lacks_mandatory_field ch →
  ∃ e, read_items items sd rd = inl e.
Proof.
  intros Hin Hlacks. revert sd rd.
  induction items as [|x items IH]; intros sd rd.
  - by apply not_elem_of_nil in Hin.
  - apply elem_of_cons in Hin as [<-|Hin].
    + simpl. destruct (_handleInviteSet_lacks ch Hlacks) as [-> | [-> | ->]]; eauto.
    + specialize (IH Hin). destruct x; simpl; try apply IH.
      * destruct (_handleInviteSet children) as [e'|[[[u a] s]|]]; eauto.
      * destruct (_handleInviteRemove children) as [e'|[u a]]; eauto.
Qed.

(** C8. When some [InviteSet] of the request lacks its user id, its access or
    its summary, [_handleInviteSet] raises the matching FORBIDDEN error on
    it, and the handler ends with an exception and the state it started in:
    no statement is executed, no [uuid4] drawn and no row changed.  The
    response is that FORBIDDEN error response or BAD_REQUEST. *)
Theorem malformed_set_is_fatal env children ch w :
  InviteSet ch ∈ children →
  lacks_mandatory_field ch →
  (∃ what, what ∈ ["href"; "access"; "summary"]
           ∧ _handleInviteSet ch = inl (missing what))
  ∧ ∃ e, _processInviteDoc env children w = (inl e, w)
         ∧ _handleInvite env children w = (_handleErrorResponse e, w)
         ∧ ((∃ description,
               _handleErrorResponse e = ErrorResponse FORBIDDEN description)
            ∨ _handleErrorResponse e = Code BAD_REQUEST).
Proof.
  intros Hin Hlacks. split.
  { destruct (_handleInviteSet_lacks ch Hlacks) as [H|[H|H]];
      eexists; (split; [|exact H]); set_solver. }
  destruct (read_items_malformed children ch ∅ ∅ Hin Hlacks) as [e He].
  exists e.
  assert (_processInviteDoc env children w = (inl e, w)) as Hrun.
  { apply _processInviteDoc_error. by apply split_dicts_error. }
  split; [done|]. split.
  - unfold _handleInvite, mbind, M_bind. by rewrite Hrun.
  - destruct (read_items_error_kind children ∅ ∅ e He) as [->|[what ->]].
    + by right.
    + left. simpl. eauto.
Qed.

Lemma malformed_set_is_fatal_witness :
  _handleInvite sample_env
    [invite_set "mailto:bob@example.com" ReadAccess "b";
     InviteSet [HRef [PCDATAElement "mailto:alice@example.com"];
                Access ReadWriteAccess]]
    sample_world
  = (ErrorResponse FORBIDDEN "missing summary", sample_world).
Proof.
  destruct (malformed_set_is_fatal sample_env
    [invite_set "mailto:bob@example.com" ReadAccess "b";
     InviteSet [HRef [PCDATAElement "mailto:alice@example.com"];
                Access ReadWriteAccess]]
    [HRef [PCDATAElement "mailto:alice@example.com"]; Access ReadWriteAccess]
    sample_world) as (_ & e & Hrun & Hresp & _).
  - set_solver.
  - right; right. intros (ch & data & Hch & _). set_solver.
  - rewrite Hresp. vm_compute in Hrun. by injection Hrun as <-.
Defined.

(** ** The statements a batch executes *)

Section log_facts.
Variable env : Env.

Lemma uninvite_log {V} (l : list (string * V)) w :
  executed (foldl (λ w kv, after_uninvite kv.1 w) w l)
  = executed w ++ (DeleteWhereUserid <$> l.*1).
Proof.
  revert w. induction l as [|kv l IH]; intros w; simpl.
  - by rewrite app_nil_r.
  - rewrite IH. simpl. by rewrite <-app_assoc.
Qed.

Lemma set_log {V} (ace : V → AccessElement) (s : V → string)
    (l : list (string * V)) w :
  ∃ rows,
    executed (foldl (λ w kv, after_set env kv.1 (ace kv.2) (s kv.2) w) w l)
    = executed w ++ (InsertOrReplace <$> rows)
    ∧ userid <$> rows = omap (validUserIDForShare env) l.*1
    ∧ Forall (λ r, state r = "NEEDS-ACTION") rows.
Proof.
  revert w. induction l as [|[u v] l IH]; intros w; simpl.
  - exists []. simpl. by rewrite app_nil_r.
  - destruct (IH (after_set env u (ace v) (s v) w)) as (rows & -> & Hu & Hst).
    unfold after_set. destruct (validUserIDForShare env u) as [n|] eqn:Hn.
    + exists (invited env n (ace v) (s v) w :: rows).
      split; [simpl; by rewrite <-app_assoc|]. split; [|by constructor].
      rewrite fmap_cons. by rewrite Hu.
    + exists rows. done.
Qed.

Lemma sweep_log records w :
  ∃ rows,
    executed (foldl (λ w r, sweep_step env r w) w records)
    = executed w ++ (InsertOrReplace <$> rows)
    ∧ Forall (λ r, state r = "INVALID") rows.
Proof.
  revert w. induction records as [|r records IH]; intros w; simpl.
  - exists []. simpl. by rewrite app_nil_r.
  - destruct (IH (sweep_step env r w)) as (rows & -> & Hst).
    unfold sweep_step. destruct (decide (needs_invalid env r)).
    + exists (set_state "INVALID" r :: rows). simpl.
      rewrite <-app_assoc. split; [done|]. by constructor.
    + exists rows. done.
Qed.

End log_facts.

(** C4. The statements a batch executes are, in this order: one [delete] for
    each user of the remove dictionary; one [insert or replace], of a row in
    state NEEDS-ACTION, for each user of the set dictionary that resolves;
    the same for each user of the update dictionary; the one [select] of
    [validateInvites]; and after it only rows rewritten as INVALID.  This
    holds whichever calls returned true or false. *)
Theorem phases_in_order env children sd rd ud w :
  split_dicts env children = inr (sd, rd, ud) →
  let w' := (_processInviteDoc env children w).2 in
  ∃ sets upds sweep,
    executed w'
    = executed w
      ++ (DeleteWhereUserid <$> keys env rd)
      ++ (InsertOrReplace <$> sets)
      ++ (InsertOrReplace <$> upds)
      ++ [SelectAllOrderByUserid]
      ++ (InsertOrReplace <$> sweep)
    ∧ userid <$> sets = omap (validUserIDForShare env) (keys env sd)
    ∧ userid <$> upds = omap (validUserIDForShare env) (keys env ud)
    ∧ Forall (λ r, state r = "NEEDS-ACTION") (sets ++ upds)
    ∧ Forall (λ r, state r = "INVALID") sweep.
Proof.
  intros Hsplit w'. subst w'.
  rewrite (_processInviteDoc_run env children sd rd ud w Hsplit). simpl.
  rewrite validateInvites_run. simpl.
  destruct (sweep_log env
    (InvitesTable.select_order_by_userid (INVITE (mutated env sd rd ud w)))
    (selected (mutated env sd rd ud w))) as (sweep & -> & Hsweep).
  simpl. unfold mutated, updated, was_set, removed.
  destruct (set_log env (λ v, v.1.2) (λ v, v.2) (iteritems env _ ud)
    (foldl (λ w kv, after_set env kv.1 kv.2.1 kv.2.2 w)
       (foldl (λ w kv, after_uninvite kv.1 w) w (iteritems env _ rd))
       (iteritems env _ sd))) as (upds & -> & Hupds & Hu).
  destruct (set_log env (λ v, v.1) (λ v, v.2) (iteritems env _ sd)
    (foldl (λ w kv, after_uninvite kv.1 w) w (iteritems env _ rd)))
    as (sets & -> & Hsets & Hs).
  rewrite uninvite_log.
  exists sets, upds, sweep. rewrite <-!app_assoc.
  split; [done|]. split; [done|]. split; [done|].
  split; [by apply Forall_app|done].
Qed.

Lemma phases_in_order_witness :
  let children := [invite_set "mailto:alice@example.com" ReadAccess "a";
                   invite_remove "mailto:bob@example.com";
                   invite_set "mailto:bob@example.com" ReadWriteAccess "b";
                   invite_remove "ghost"] in
  ∃ sets upds sweep,
    executed (_processInviteDoc sample_env children sample_world).2
    = [DeleteWhereUserid "ghost"]
      ++ (InsertOrReplace <$> sets) ++ (InsertOrReplace <$> upds)
      ++ [SelectAllOrderByUserid] ++ (InsertOrReplace <$> sweep)
    ∧ userid <$> sets = ["/principals/users/alice"]
    ∧ userid <$> upds = ["/principals/users/bob"].
Proof.
  intros children.
  destruct (phases_in_order sample_env children
    {["mailto:alice@example.com" := (ReadAccess, "a")]}
    {["ghost" := None]}
    {["mailto:bob@example.com" := (None, ReadWriteAccess, "b")]}
    sample_world) as (sets & upds & sweep & Hlog & Hsets & Hupds & _);
    [reflexivity|].
  exists sets, upds, sweep. split; [exact Hlog|]. split; assumption.
Defined.

(** ** A user that is both removed and set *)

Lemma rows_for_userid_unique rows r :
  InvitesTable.unique rows → r ∈ rows →
  rows_for_userid (userid r) rows = [r].
Proof.
  unfold rows_for_userid. intros Hu Hr.
  induction rows as [|y rows IH]; [by apply not_elem_of_nil in Hr|].
  assert (InvitesTable.unique rows) as Hu'.
  { destruct Hu as [H1 H2]. rewrite !fmap_cons in H1, H2.
    apply NoDup_cons in H1 as [_ H1], H2 as [_ H2]. by split. }
  assert (∀ x, x ∈ rows → userid x ≠ userid y) as Hy.
  { intros x Hx Heq. assert (x = y) as ->.
    { apply (unique_userid (y :: rows)); [done|by right|by left|done]. }
    destruct Hu as [H1 _]. rewrite fmap_cons in H1.
    apply NoDup_cons in H1 as [H1 _]. apply H1.
    by apply list_elem_of_fmap_2. }
  apply elem_of_cons in Hr as [->|Hr].
  - rewrite filter_cons_True by done. f_equal. by apply filter_none.
  - rewrite filter_cons_False; [by apply IH|].
    intros Heq. by apply (Hy r).
Qed.

Section collapse_facts.
Import InvitesTable.
Variable env : Env.
Hypothesis Hinj : Inj (=) (=) (uuid4 env).

Lemma after_set_keeps u ace s w row k :
  row ∈ INVITE w → inviteuid row = uuid4 env k → k < uuids_drawn w →
  validUserIDForShare env u ≠ Some (userid row) →
  row ∈ INVITE (after_set env u ace s w)
  ∧ k < uuids_drawn (after_set env u ace s w).
Proof.
  intros Hrow Hk Hlt Hne. unfold after_set.
  destruct (validUserIDForShare env u) as [n|]; [|done]. simpl.
  split; [|lia]. apply elem_of_insert_or_replace. right.
  split; [done|]. simpl. split; [congruence|].
  rewrite Hk. intros Heq%Hinj. lia.
Qed.

Lemma updated_keeps {V} (ace : V → AccessElement) (s : V → string)
    (l : list (string * V)) w row k :
  row ∈ INVITE w → inviteuid row = uuid4 env k → k < uuids_drawn w →
  (∀ kv, kv ∈ l → validUserIDForShare env kv.1 ≠ Some (userid row)) →
  row ∈ INVITE (foldl (λ w kv, after_set env kv.1 (ace kv.2) (s kv.2) w) w l).
Proof.
  intros Hrow Hk Hlt Hl.
  apply (foldl_inv (λ w, row ∈ INVITE w ∧ k < uuids_drawn w)); [|done].
  intros kv w' Hkv [? ?]. apply after_set_keeps; auto.
Qed.

Lemma updated_has (ud : UpdateDict) u removeACL newACL s n w :
  iteration_ok env →
  ud !! u = Some (removeACL, newACL, s) →
  validUserIDForShare env u = Some n →
  (∀ u', u' ≠ u → is_Some (ud !! u') → validUserIDForShare env u' ≠ Some n) →
  ∃ row, row ∈ INVITE (updated env ud w)
         ∧ userid row = n
         ∧ access row = inviteAccessMapFromXML newACL
         ∧ state row = "NEEDS-ACTION"
         ∧ summary row = s.
Proof.
  intros Hiter Hud Hn Hothers. unfold updated.
  pose proof (NoDup_keys env Hiter ud) as Hnd. unfold keys in Hnd.
  assert ((u, (removeACL, newACL, s)) ∈ iteritems env _ ud) as Hin
    by by apply elem_of_iteritems.
  apply list_elem_of_split in Hin as (l1 & l2 & Hl).
  assert (∀ kv, kv ∈ l2 → kv ∈ iteritems env _ ud ∧ kv.1 ≠ u) as Hl2.
  { intros kv Hkv. rewrite Hl in Hnd |- *.
    split; [apply elem_of_app; right; by right|].
    rewrite fmap_app, fmap_cons in Hnd.
    apply NoDup_app in Hnd as (_ & _ & Hnd).
    apply NoDup_cons in Hnd as [Hnd _]. intros Heq. apply Hnd.
    apply list_elem_of_fmap. exists kv. by split. }
  rewrite Hl, foldl_app. simpl.
  set (wpre := foldl _ w l1).
  unfold after_set at 2. rewrite Hn.
  exists (invited env n newACL s wpre).
  split; [|done].
  apply (updated_keeps (λ v, v.1.2) (λ v, v.2) l2 _ _ (uuids_drawn wpre)).
  - apply elem_of_insert_or_replace. by left.
  - done.
  - simpl. lia.
  - intros [u' v] Hkv. destruct (Hl2 _ Hkv) as [Hkv' Hne]. simpl in *.
    apply Hothers; [done|]. apply elem_of_iteritems in Hkv'; eauto.
Qed.

End collapse_facts.

Lemma mark_fields env r :
  access (mark env r) = access r ∧ summary (mark env r) = summary r.
Proof. unfold mark. by destruct (decide _). Qed.

(** C1, as the code has it.  A user that is both removed and set leaves both
    dictionaries and gets one entry in the update dictionary before any loop
    runs.  When its user id resolves to the principal URL [n] (and [uuid4]
    does not repeat, the table starts with unique columns, and no other user
    that is both removed and set resolves to [n]), the table after the batch
    has exactly one row for [n], with the new access and summary, and the
    user is in [okusers] and not in [badusers]. *)
Theorem collapse_is_one_update env children (sd0 : SetDict) (rd0 : RemoveDict)
    u removeACL newACL s n w :
  iteration_ok env →
  Inj (=) (=) (uuid4 env) →
  InvitesTable.unique (INVITE w) →
  read_items children ∅ ∅ = inr (sd0, rd0) →
  sd0 !! u = Some (newACL, s) →
  rd0 !! u = Some removeACL →
  validUserIDForShare env u = Some n →
  (∀ u', u' ≠ u → is_Some (sd0 !! u') → is_Some (rd0 !! u') →
         validUserIDForShare env u' ≠ Some n) →
  ∃ sd rd ud,
    split_dicts env children = inr (sd, rd, ud)
    ∧ sd !! u = None ∧ rd !! u = None
    ∧ ud !! u = Some (removeACL, newACL, s)
    ∧ (∃ row, rows_for_userid n (INVITE (apply_batch env sd rd ud w).2) = [row]
              ∧ access row = inviteAccessMapFromXML newACL
              ∧ summary row = s)
    ∧ u ∈ (apply_batch env sd rd ud w).1.1
    ∧ u ∉ (apply_batch env sd rd ud w).1.2.
Proof.
  intros Hiter Hinj Hu Hread Hs Hr Hn Hothers.
  destruct (split_dicts_lookup env Hiter children sd0 rd0 Hread)
    as (sd & rd & ud & Hsplit & Hlook).
  exists sd, rd, ud. split; [done|].
  assert (ud !! u = Some (removeACL, newACL, s)) as Hud.
  { destruct (Hlook u) as (_ & _ & ->). unfold collapsed. by rewrite Hs, Hr. }
  destruct (Hlook u) as (Hsd & Hrd & _).
  rewrite Hr, decide_True in Hsd by eauto.
  rewrite Hs, decide_True in Hrd by eauto.
  split; [done|]. split; [done|]. split; [done|].
  rewrite apply_batch_run. simpl.
  assert (resolves env u = true) as Hres.
  { unfold resolves. rewrite Hn. apply bool_decide_eq_true_2. eauto. }
  destruct (elem_of_outcome env Hiter sd rd ud u) as [Hok Hbad].
  split; [|split].
  - pose proof (unique_mutated env sd rd ud w Hu) as Hum.
    destruct (validateInvites_rows env _ Hum) as [Hu' Hrows].
    destruct (updated_has env Hinj ud u removeACL newACL s n
                (was_set env sd (removed env rd w)) Hiter Hud Hn)
      as (row & Hrow & Hrn & Hra & _ & Hrs).
    { intros u' Hne [v Hv]. destruct (Hlook u') as (_ & _ & Hc).
      rewrite Hv in Hc. unfold collapsed in Hc.
      destruct (rd0 !! u') eqn:?, (sd0 !! u') eqn:?; try done.
      apply Hothers; eauto. }
    exists (mark env row).
    destruct (mark_fields env row) as [-> ->].
    split; [|done]. rewrite <-Hrn, <-(mark_userid env row).
    apply rows_for_userid_unique; [done|]. apply Hrows. by exists row.
  - apply Hok. right. split; [right; eauto|done].
  - rewrite Hbad. intros [_ ?]. congruence.
Qed.

Lemma collapse_is_one_update_witness :
  let children := [invite_set "mailto:bob@example.com" ReadWriteAccess "s";
                   invite_remove "mailto:bob@example.com"] in
  ∃ sd rd ud,
    split_dicts sample_env children = inr (sd, rd, ud)
    ∧ (∃ row, rows_for_userid "/principals/users/bob"
                (INVITE (apply_batch sample_env sd rd ud sample_world).2)
              = [row]
              ∧ access row = "read-write" ∧ summary row = "s")
    ∧ "mailto:bob@example.com" ∈ (apply_batch sample_env sd rd ud sample_world).1.1.
Proof.
  intros children.
  destruct (collapse_is_one_update sample_env children
    {["mailto:bob@example.com" := (ReadWriteAccess, "s")]}
    {["mailto:bob@example.com" := None]}
    "mailto:bob@example.com" None ReadWriteAccess "s"
    "/principals/users/bob" sample_world)
    as (sd & rd & ud & Hsplit & _ & _ & _ & Hrow & Hok & _).
  - exact sample_iteration_ok.
  - exact sample_uuid4_inj.
  - exact sample_world_unique.
  - reflexivity.
  - reflexivity.
  - reflexivity.
  - reflexivity.
  - intros u' Hne [v Hv]. apply lookup_singleton_Some in Hv as [? _]. done.
  - exists sd, rd, ud. by repeat split.
Defined.

(** C1, as the specification states it, fails for a user that does not
    resolve: the update is refused, the user is in [badusers], and no row is
    stored. *)
Lemma collapse_claim_counterexample :
  ¬ collapse_claim sample_env
      [invite_set "nobody" ReadWriteAccess "s"; invite_remove "nobody"]
      created.
Proof.
  intros Hclaim.
  destruct (Hclaim {["nobody" := (ReadWriteAccess, "s")]}
                   {["nobody" := None]} "nobody" ReadWriteAccess "s")
    as (sd & rd & ud & Hsplit & _ & Hrd & Hok & _).
  - reflexivity.
  - reflexivity.
  - by eexists.
  - rewrite apply_batch_run in Hok. simpl in Hok.
    apply (elem_of_outcome sample_env sample_iteration_ok) in Hok
      as [[? Hr]|[_ Hres]].
    + rewrite Hrd in Hr. done.
    + done.
Qed.

(** * Principal provisioning *)










(** ** Default access control *)

(** The default list repeated along any chain of ancestors grants exactly
    Read to authenticated principals. *)
Lemma check_default_chain (nodes : list Node) requesting privilege :
  check (defaultAccessControlList ++ (nodes ≫= λ _, defaultAccessControlList))
        requesting privilege
  = is_authenticated requesting && bool_decide (privilege = davxml.Read).
Proof.
  induction nodes as [|node nodes IH].
  - by destruct requesting, privilege.
  - change (check (defaultAccessControlList
                   ++ (nodes ≫= λ _, defaultAccessControlList))
                  requesting privilege
            = is_authenticated requesting
              && bool_decide (privilege = davxml.Read)) in IH.
    simpl in *. destruct requesting, privilege; simpl in *; try done;
      exact IH.
Qed.

(** C6. On every node of the provisioning hierarchy (the provisioning
    resource, a type resource, a principal) the default access control lets
    an Authenticated principal read and not write, and lets neither
    Unauthenticated nor All read or write; these are the six rows of
    [_authReadOnlyPrivileges], and [_checkPrivileges] passes on each. *)
Theorem default_access_control (node : Node) (url : string) :
  forallb (_checkPrivileges checkPrivileges) (_authReadOnlyPrivileges node url)
  = true
  ∧ checkPrivileges node davxml.Read davxml.Authenticated = true
  ∧ checkPrivileges node davxml.Write davxml.Authenticated = false
  ∧ checkPrivileges node davxml.Read davxml.Unauthenticated = false
  ∧ checkPrivileges node davxml.Write davxml.Unauthenticated = false
  ∧ checkPrivileges node davxml.Read davxml.All = false
  ∧ checkPrivileges node davxml.Write davxml.All = false.
Proof.
  assert (∀ privilege principal,
    checkPrivileges node privilege principal
    = is_authenticated principal && bool_decide (privilege = davxml.Read))
    as Hcheck.
  { intros privilege principal. apply check_default_chain. }
  split; [|by rewrite !Hcheck].
  unfold _authReadOnlyPrivileges. simpl. by rewrite !Hcheck.
Qed.

(** * The rest of [sharing.py] *)

(** ** Inverting a dictionary *)

Lemma inverted_list_lookup `{Countable V} (l : list (string * V))
    (m0 : gmap V string) v k :
  NoDup (snd <$> l) →
  foldl (λ m kv, insert (kv.2) (kv.1) m) m0 l !! v = Some k ↔
  (k, v) ∈ l ∨ ((v ∉ snd <$> l) ∧ m0 !! v = Some k).
Proof.
  revert m0. induction l as [|[k' v'] l IH]; intros m0 Hnd; simpl.
  - split; [intros Hm; right; split; [apply not_elem_of_nil|done]|].
    intros [Hin|[_ Hm]]; [by apply not_elem_of_nil in Hin|done].
  - apply NoDup_cons in Hnd as [Hv' Hnd]. rewrite (IH _ Hnd).
    rewrite !elem_of_cons, lookup_insert_Some. split.
    + intros [Hin|[Hv [[<- <-]|[Hne Hm]]]]; [by left; right|by left; left|].
      right. split; [|done]. intros [?|?]; [congruence|done].
    + intros [[[= -> ->]|Hin]|[Hv Hm]].
      * right. split; [done|]. by left.
      * by left.
      * right. split; [intros ?; apply Hv; by right|].
        right. split; [|done]. intros <-. apply Hv. by left.
Qed.

(** X1. When no two keys of a dictionary have the same value, the inverted
    dictionary maps a value to a key exactly when the dictionary maps that
    key to that value, in whatever order the items are iterated. *)
Theorem inverted_round_trip `{Countable V} env (d : gmap string V) :
  iteration_ok env →
  (∀ k1 k2 v, d !! k1 = Some v → d !! k2 = Some v → k1 = k2) →
  ∀ v k, inverted env d !! v = Some k ↔ d !! k = Some v.
Proof.
  intros Hiter Hinj v k. unfold inverted.
  rewrite inverted_list_lookup.
  - rewrite elem_of_iteritems by done. rewrite lookup_empty.
    split; [intros [?|[_ ?]]; done|by left].
  - apply NoDup_fmap_2_strong; [|by apply NoDup_iteritems].
    intros [k1 v1] [k2 v2] H1 H2 Heq. simpl in Heq. subst v2.
    apply elem_of_iteritems in H1, H2; [|done..].
    by rewrite (Hinj k1 k2 v1 H1 H2).
Qed.

Lemma inverted_round_trip_witness :
  inverted sample_env inviteAccessMapToXML !! ReadWriteAccess
  = Some "read-write"
  ↔ inviteAccessMapToXML !! "read-write" = Some ReadWriteAccess.
Proof.
  apply (inverted_round_trip sample_env inviteAccessMapToXML).
  - exact sample_iteration_ok.
  - intros k1 k2 v. unfold inviteAccessMapToXML.
    rewrite !lookup_insert_Some, !lookup_singleton_Some.
    intros [[<- <-]|[_ [<- <-]]] [[<- ?]|[_ [<- ?]]]; done.
Defined.

(** X2. The two maps of the module are inverses of each other: the access
    string stored for an element is the key of that element, every status
    element has exactly one stored string, and looking a string up and
    back returns it. *)
Theorem invite_maps_round_trip env :
  iteration_ok env →
  (∀ a, inverted env inviteAccessMapToXML !! a
        = Some (inviteAccessMapFromXML a))
  ∧ (∀ a, inviteAccessMapToXML !! inviteAccessMapFromXML a = Some a)
  ∧ (∀ k st, inviteStatusMapToXML !! k = Some st ↔
             inviteStatusMapFromXML env !! st = Some k)
  ∧ (∀ st, ∃ k, inviteStatusMapFromXML env !! st = Some k
                ∧ inviteStatusMapToXML !! k = Some st).
Proof.
  intros Hiter.
  assert (∀ k1 k2 v, inviteAccessMapToXML !! k1 = Some v →
                     inviteAccessMapToXML !! k2 = Some v → k1 = k2) as Hacc.
  { intros k1 k2 v. unfold inviteAccessMapToXML.
    rewrite !lookup_insert_Some, !lookup_singleton_Some.
    intros [[<- <-]|[_ [<- <-]]] [[<- ?]|[_ [<- ?]]]; done. }
  assert (∀ k1 k2 v, inviteStatusMapToXML !! k1 = Some v →
                     inviteStatusMapToXML !! k2 = Some v → k1 = k2) as Hst.
  { intros k1 k2 v. unfold inviteStatusMapToXML.
    rewrite !lookup_insert_Some, !lookup_singleton_Some.
    intros H1 H2.
    repeat match goal with
           | H : _ ∨ _ |- _ => destruct H
           | H : _ ∧ _ |- _ => destruct H
           end; subst; done. }
  assert (∀ a, inviteAccessMapToXML !! inviteAccessMapFromXML a = Some a)
    as Hback by (by intros []).
  split; [|split; [done|split]].
  - intros a. by apply (inverted_round_trip env _ Hiter Hacc).
  - intros k st. unfold inviteStatusMapFromXML.
    by rewrite (inverted_round_trip env _ Hiter Hst).
  - intros st. unfold inviteStatusMapFromXML.
    setoid_rewrite (inverted_round_trip env _ Hiter Hst).
    exists (match st with
            | InviteStatusNoResponse => "NEEDS-ACTION"
            | InviteStatusAccepted => "ACCEPTED"
            | InviteStatusDeclined => "DECLINED"
            | InviteStatusDeleted => "DELETED"
            | InviteStatusInvalid => "INVALID"
            end).
    by destruct st.
Qed.

Lemma invite_maps_round_trip_witness :
  inverted sample_env inviteAccessMapToXML !! ReadAccess = Some "read-only".
Proof.
  apply (invite_maps_round_trip sample_env). exact sample_iteration_ok.
Defined.

(** ** Rendering the invites *)

Lemma makePropertyElement_inr r :
  renderable r →
  ∃ x, makePropertyElement r = inr x
       ∧ UID x = inviteuid r ∧ href x = userid r
       ∧ inviteAccessMapToXML !! access r = Some (InviteAccess x)
       ∧ inviteStatusMapToXML !! state r = Some (InviteStatus x).
Proof.
  intros [[a Ha] [st Hst]]. unfold makePropertyElement. rewrite Ha, Hst.
  by eexists.
Qed.

Lemma makePropertyElement_inl r :
  ¬ renderable r → makePropertyElement r = inl KeyError.
Proof.
  intros Hr. unfold makePropertyElement, renderable in *.
  destruct (inviteAccessMapToXML !! access r); [|done].
  destruct (inviteStatusMapToXML !! state r); [|done].
  destruct Hr. eauto.
Qed.

Lemma makePropertyElements_inr records :
  Forall renderable records →
  ∃ xs, makePropertyElements records = inr xs
        ∧ Forall2 (λ r x, makePropertyElement r = inr x) records xs.
Proof.
  induction 1 as [|r records Hr _ (xs & Hxs & Hall)]; simpl.
  - exists []. by split.
  - destruct (makePropertyElement_inr r Hr) as (x & Hx & _).
    rewrite Hx, Hxs. exists (x :: xs). split; [done|]. by constructor.
Qed.

Lemma makePropertyElements_inl records r :
  r ∈ records → ¬ renderable r → makePropertyElements records = inl KeyError.
Proof.
  intros Hin Hr. induction records as [|r' records IH];
    [by apply not_elem_of_nil in Hin|]. simpl.
  apply elem_of_cons in Hin as [<-|Hin].
  - by rewrite makePropertyElement_inl.
  - destruct (makePropertyElement r') as [e|x] eqn:Hx.
    + destruct (decide (renderable r')) as [Hr'|Hr'].
      * destruct (makePropertyElement_inr r' Hr') as (? & ? & _). congruence.
      * rewrite makePropertyElement_inl in Hx by done. congruence.
    + by rewrite IH.
Qed.

Lemma renderable_invited env n ace s w : renderable (invited env n ace s w).
Proof. split; simpl; by destruct ace. Qed.

Lemma renderable_INVALID r : renderable r → renderable (set_state "INVALID" r).
Proof. intros [? _]. split; [done|]. simpl. by eexists. Qed.

Lemma Forall_filter_rows (P Q : Invite → Prop) `{∀ x, Decision (Q x)}
    (rows : list Invite) :
  Forall P rows → Forall P (filter Q rows).
Proof.
  rewrite !Forall_forall. intros HP x Hx.
  apply list_elem_of_filter in Hx as [_ Hx]. by apply HP.
Qed.

Lemma renderable_insert_or_replace r rows :
  renderable r → Forall renderable rows →
  Forall renderable (InvitesTable.insert_or_replace r rows).
Proof.
  intros Hr Hrows. apply Forall_app. split; [|by constructor].
  by apply Forall_filter_rows.
Qed.

Section render_facts.
Variable env : Env.

Lemma renderable_after_set u ace s w :
  Forall renderable (INVITE w) →
  Forall renderable (INVITE (after_set env u ace s w)).
Proof.
  unfold after_set. destruct (validUserIDForShare env u); [|done].
  apply renderable_insert_or_replace, renderable_invited.
Qed.

Lemma renderable_mutated sd rd ud w :
  Forall renderable (INVITE w) →
  Forall renderable (INVITE (mutated env sd rd ud w)).
Proof.
  intros Hw. unfold mutated, updated, was_set, removed.
  repeat (apply (foldl_inv (λ w, Forall renderable (INVITE w)));
          [intros; first [by apply renderable_after_set
                         |by apply Forall_filter_rows]|]).
  done.
Qed.

Lemma renderable_validateInvites w :
  Forall renderable (INVITE w) →
  Forall renderable (INVITE (validateInvites env w).2).
Proof.
  intros Hw. rewrite validateInvites_run. simpl.
  apply (foldl_inv (λ w, Forall renderable (INVITE w))); [|done].
  intros r w' Hr Hw'. unfold sweep_step.
  destruct (decide (needs_invalid env r)); [|done]. simpl.
  apply renderable_insert_or_replace; [|done].
  apply renderable_INVALID.
  rewrite select_order_by_userid_perm in Hr.
  by apply (proj1 (Forall_forall _ _) Hw).
Qed.

Lemma renderable__processInviteDoc children w :
  Forall renderable (INVITE w) →
  Forall renderable (INVITE (_processInviteDoc env children w).2).
Proof.
  intros Hw.
  destruct (split_dicts env children) as [e|[[sd rd] ud]] eqn:Hsplit.
  - by rewrite (_processInviteDoc_error env children e w Hsplit).
  - rewrite (_processInviteDoc_run env children sd rd ud w Hsplit). simpl.
    by apply renderable_validateInvites, renderable_mutated.
Qed.

Lemma inviteProperty_run w :
  inviteProperty env true true w
  = (match makePropertyElements
             (InvitesTable.select_order_by_userid
                (INVITE (validateInvites env w).2)) with
     | inl e => inl e
     | inr xs => inr (Some xs)
     end,
     selected (validateInvites env w).2).
Proof.
  unfold inviteProperty, mbind, M_bind. simpl.
  by destruct (validateInvites env w) as [[] w'].
Qed.

End render_facts.

(** X3. Every row the handler writes can be rendered: when the rows of the
    table have an access and a state the two maps know, so have the rows
    after any request, and [inviteProperty] then returns one element for
    each row without a [KeyError]. *)
Theorem rendering_never_fails env children w :
  Forall renderable (INVITE w) →
  let w' := (_processInviteDoc env children w).2 in
  Forall renderable (INVITE w')
  ∧ ∃ xs, (inviteProperty env true true w').1 = inr (Some xs)
          ∧ length xs = length (INVITE (inviteProperty env true true w').2).
Proof.
  intros Hw w'.
  assert (Forall renderable (INVITE w')) as Hw'
    by by apply renderable__processInviteDoc.
  split; [done|]. rewrite inviteProperty_run. simpl.
  pose proof (renderable_validateInvites env w' Hw') as Hv.
  destruct (makePropertyElements_inr
    (InvitesTable.select_order_by_userid (INVITE (validateInvites env w').2)))
    as (xs & -> & Hall).
  { by rewrite select_order_by_userid_perm. }
  exists xs. split; [done|].
  rewrite <-(Forall2_length _ _ _ Hall).
  by rewrite select_order_by_userid_perm.
Qed.

Lemma rendering_never_fails_witness :
  ∃ xs, (inviteProperty sample_env true true
           (_processInviteDoc sample_env
              [invite_set "mailto:alice@example.com" ReadAccess "a"]
              sample_world).2).1 = inr (Some xs).
Proof.
  destruct (rendering_never_fails sample_env
    [invite_set "mailto:alice@example.com" ReadAccess "a"] sample_world)
    as (_ & xs & Hxs & _).
  - repeat constructor; by eexists.
  - by exists xs.
Defined.

(** X4. [inviteProperty] answers [None] and touches nothing when sharing is
    disabled or the collection is not shared.  Otherwise it validates first
    and lists the rows in ascending order of userid; each element carries the
    uid, userid and access of its row, the stored state of a row whose user
    resolves, and the invalid status for a row whose user does not. *)
Theorem inviteProperty_lists_validated env Sharing_Enabled isShared w :
  InvitesTable.unique (INVITE w) →
  Forall renderable (INVITE w) →
  (Sharing_Enabled && isShared = false →
   inviteProperty env Sharing_Enabled isShared w = (inr None, w))
  ∧ (Sharing_Enabled && isShared = true →
     ∃ xs,
       (inviteProperty env Sharing_Enabled isShared w).1 = inr (Some xs)
       ∧ StronglySorted String.le (href <$> xs)
       ∧ href <$> xs ≡ₚ userid <$> INVITE w
       ∧ ∀ x, x ∈ xs →
           ∃ r, r ∈ INVITE w
                ∧ UID x = inviteuid r ∧ href x = userid r
                ∧ inviteAccessMapToXML !! access r = Some (InviteAccess x)
                ∧ (validUserIDForShare env (userid r) = None →
                   InviteStatus x = InviteStatusInvalid)
                ∧ (validUserIDForShare env (userid r) ≠ None →
                   inviteStatusMapToXML !! state r = Some (InviteStatus x))).
Proof.
  intros Hu Hw. split; intros Hflag;
    destruct Sharing_Enabled, isShared; try done.
  rewrite inviteProperty_run. simpl.
  destruct (validateInvites_rows env w Hu) as [Hu' Hrows].
  pose proof (renderable_validateInvites env w Hw) as Hv.
  set (records := InvitesTable.select_order_by_userid
                    (INVITE (validateInvites env w).2)).
  assert (records ≡ₚ INVITE (validateInvites env w).2) as Hperm
    by apply select_order_by_userid_perm.
  destruct (makePropertyElements_inr records) as (xs & -> & Hall);
    [by rewrite Hperm|].
  exists xs. split; [done|].
  assert (href <$> xs = userid <$> records) as Hhref.
  { clear -Hall. induction Hall as [|r x records xs Hx _ IH]; [done|].
    rewrite !fmap_cons, IH. f_equal.
    unfold makePropertyElement in Hx.
    destruct (inviteAccessMapToXML !! access r); [|done].
    destruct (inviteStatusMapToXML !! state r); [|done].
    by injection Hx as <-. }
  split; [|split].
  - rewrite Hhref. apply StronglySorted_fmap with (R1 := userid_le).
    + by intros a b.
    + apply (StronglySorted_merge_sort _).
  - rewrite Hhref, Hperm.
    apply NoDup_Permutation; [apply Hu'|apply Hu|].
    intros n. rewrite !list_elem_of_fmap. split.
    + intros (r & -> & Hr). apply Hrows in Hr as (y & Hy & ->).
      exists y. by rewrite mark_userid.
    + intros (r & -> & Hr). exists (mark env r).
      rewrite mark_userid. split; [done|]. apply Hrows. eauto.
  - intros x Hx.
    apply list_elem_of_lookup in Hx as [i Hi].
    destruct (Forall2_lookup_r _ _ _ _ _ Hall Hi) as (r' & Hr' & Hmk).
    assert (r' ∈ INVITE (validateInvites env w).2) as Hin.
    { rewrite <-Hperm. by eapply list_elem_of_lookup_2. }
    apply Hrows in Hin as (r & Hr & ->).
    exists r. split; [done|].
    unfold makePropertyElement in Hmk.
    destruct (inviteAccessMapToXML !! access (mark env r)) as [a|] eqn:Ha;
      [|done].
    destruct (inviteStatusMapToXML !! state (mark env r)) as [st|] eqn:Hst;
      [|done].
    injection Hmk as <-. simpl.
    destruct (mark_fields env r) as [Hacc _]. rewrite Hacc in Ha.
    rewrite mark_inviteuid, mark_userid.
    split; [done|]. split; [done|]. split; [done|]. split.
    + intros Hnone.
      assert (state (mark env r) = "INVALID") as Hinv
        by (apply mark_valid; by rewrite mark_userid).
      rewrite Hinv in Hst. by injection Hst as <-.
    + intros Hres. by rewrite mark_resolved in Hst.
Qed.

Lemma inviteProperty_lists_validated_witness :
  ∃ xs, (inviteProperty sample_env true true sample_world).1 = inr (Some xs)
        ∧ StronglySorted String.le (href <$> xs).
Proof.
  destruct (inviteProperty_lists_validated sample_env true true sample_world)
    as [_ Hlist].
  - exact sample_world_unique.
  - repeat constructor; by eexists.
  - destruct (Hlist eq_refl) as (xs & Hxs & Hsorted & _). by exists xs.
Defined.

(** ** Rows and records *)

(** X5. The row [addOrUpdateRecord] stores for a record has a value in every
    column of the table, and [_makeRecord] applied to that row, in the order
    [select *] returns the columns, gives the record back: no two fields are
    exchanged between the column list of the insert, the order of the table
    and the arguments of [Invite]. *)
Theorem stored_row_round_trip (record : Invite) :
  ∃ row, stored_row record = Some <$> row
         ∧ _makeRecord row = inr record
         ∧ bound insert_columns (insert_values record) USERID
           = Some (userid record)
         ∧ bound insert_columns (insert_values record) INVITEUID
           = Some (inviteuid record).
Proof.
  exists [inviteuid record; userid record; access record; state record;
          summary record].
  by destruct record.
Qed.

(** ** The resource type of a shared collection *)

Lemma downgraded_upgraded children :
  downgraded (upgraded children) = downgraded children.
Proof.
  unfold downgraded, upgraded.
  rewrite filter_app, filter_cons_False, filter_nil by (by intros ?).
  apply app_nil_r.
Qed.

Lemma count_upgraded children :
  length (filter (λ child, child = SharedOwner) (upgraded children))
  = S (length (filter (λ child, child = SharedOwner) children)).
Proof.
  unfold upgraded.
  rewrite filter_app, filter_cons_True, filter_nil by done.
  rewrite length_app. simpl. lia.
Qed.

(** X6. [upgradeToShare] appends a shared-owner marker whether or not one is
    there, so [n] upgrades add [n] markers; [downgradeFromShare] removes every
    marker and keeps the other children in their order, so after any number
    of upgrades it gives what it gives without them, and it undoes an upgrade
    of a resource type that had no marker. *)
Theorem upgrade_downgrade_resource_type children n :
  (SharedOwner ∉ downgraded children)
  ∧ downgraded (Nat.iter n upgraded children) = downgraded children
  ∧ length (filter (λ child, child = SharedOwner)
                   (Nat.iter n upgraded children))
    = n + length (filter (λ child, child = SharedOwner) children)
  ∧ (∀ child, child ≠ SharedOwner →
              (child ∈ downgraded children ↔ child ∈ children))
  ∧ (SharedOwner ∉ children → downgraded (upgraded children) = children).
Proof.
  split; [|split; [|split; [|split]]].
  - unfold downgraded. intros [? _]%list_elem_of_filter. done.
  - induction n as [|n IH]; [done|]. simpl. by rewrite downgraded_upgraded.
  - induction n as [|n IH]; [done|]. simpl. rewrite count_upgraded, IH. lia.
  - intros child Hne. unfold downgraded. rewrite list_elem_of_filter. tauto.
  - intros Hnot. rewrite downgraded_upgraded. unfold downgraded.
    induction children as [|c children IH]; [done|].
    rewrite filter_cons_True.
    + f_equal. apply IH. intros ?. apply Hnot. by right.
    + intros ->. apply Hnot. by left.
Qed.

(** ** Reading a request *)

Lemma last_snoc_Some {A} (l : list A) (x : A) : last (l ++ [x]) = Some x.
Proof. by rewrite last_snoc. Qed.

Lemma last_pcdata_last ch v :
  last_pcdata ch v = from_option Some v (last (pcdata_of ch)).
Proof.
  unfold last_pcdata, pcdata_of. revert v.
  induction ch as [|x ch IH] using rev_ind; intros v; [done|].
  rewrite foldl_snoc, omap_app. simpl.
  destruct x; simpl; rewrite ?app_nil_r; try apply IH.
  by rewrite last_snoc.
Qed.

Lemma last_app_from_option {A} (l1 l2 : list A) (v : option A) :
  from_option Some (from_option Some v (last l1)) (last l2)
  = from_option Some v (last (l1 ++ l2)).
Proof.
  destruct l2 as [|y l2 _] using rev_ind; [by rewrite app_nil_r|].
  by rewrite app_assoc, !last_snoc.
Qed.

Lemma read_set_items_last children u0 a0 s0 :
  foldl read_set_item (u0, a0, s0) children
  = (from_option Some u0 (last (href_texts children)),
     from_option Some a0 (last (access_elements children)),
     from_option Some s0 (last (summary_texts children))).
Proof.
  induction children as [|x children IH] using rev_ind; [done|].
  rewrite foldl_snoc, IH.
  unfold href_texts, summary_texts, access_elements.
  rewrite !bind_app, omap_app. simpl.
  destruct x; simpl; rewrite ?app_nil_r; try done.
  - by rewrite last_pcdata_last, last_app_from_option.
  - by rewrite last_pcdata_last, last_app_from_option.
  - by rewrite last_snoc.
Qed.

Lemma read_remove_items_last children u0 acc0 :
  foldl read_remove_item (u0, acc0) children
  = (from_option Some u0 (last (href_texts children)),
     acc0 ++ access_elements children).
Proof.
  induction children as [|x children IH] using rev_ind;
    [by rewrite app_nil_r|].
  rewrite foldl_snoc, IH.
  unfold href_texts, access_elements.
  rewrite !bind_app, omap_app. simpl.
  destruct x; simpl; rewrite ?app_nil_r; try done.
  - by rewrite last_pcdata_last, last_app_from_option.
  - by rewrite app_assoc.
Qed.

(** X7. [_handleInviteSet] goes by the last text found in an [HRef], the last
    access element and the last text found in an [InviteSummary]: a missing
    user id is reported before a missing access and that before a missing
    summary, and when all three are there the result is the triple, or
    nothing when the user id or the summary is the empty string. *)
Theorem _handleInviteSet_last children :
  _handleInviteSet children
  = match last (href_texts children), last (access_elements children),
          last (summary_texts children) with
    | Some u, Some a, Some s =>
        if decide (u ≠ "" ∧ s ≠ "") then inr (Some (u, a, s)) else inr None
    | None, _, _ => inl (missing "href")
    | Some _, None, _ => inl (missing "access")
    | Some _, Some _, None => inl (missing "summary")
    end.
Proof.
  unfold _handleInviteSet. rewrite read_set_items_last.
  destruct (last (href_texts children)) as [u|],
    (last (access_elements children)) as [a|],
    (last (summary_texts children)) as [s|]; simpl; try done.
  unfold truthy.
  destruct (decide (u ≠ "")), (decide (s ≠ ""));
    rewrite ?bool_decide_eq_true_2, ?bool_decide_eq_false_2 by done; simpl;
    case_decide as H; try done; destruct H; done.
Qed.

Lemma foldl_ext_eq {A B} (f g : A → B → A) (l : list B) (a : A) :
  (∀ a b, f a b = g a b) → foldl f a l = foldl g a l.
Proof.
  intros Hfg. revert a. induction l as [|b l IH]; intros a; [done|].
  simpl. by rewrite Hfg, IH.
Qed.

(** X8. [_handleInviteRemove] fails only when no [HRef] holds a text; else it
    returns the last such text, the empty string included, with the set of
    the access elements of the item, or [None] when it has none. *)
Theorem _handleInviteRemove_last children :
  _handleInviteRemove children
  = match last (href_texts children) with
    | None => inl (missing "href")
    | Some u =>
        inr (u, if decide (access_elements children = []) then None
                else Some (list_to_set (access_elements children)))
    end.
Proof.
  unfold _handleInviteRemove.
  rewrite (foldl_ext_eq _ read_remove_item) by (by intros [u acc] item).
  rewrite read_remove_items_last. simpl.
  destruct (last (href_texts children)) as [u|]; [|done].
  do 2 f_equal.
  destruct (access_elements children) as [|a l]; by repeat case_decide.
Qed.

Lemma read_items_app l1 l2 sd rd :
  read_items (l1 ++ l2) sd rd
  = match read_items l1 sd rd with
    | inl e => inl e
    | inr (sd', rd') => read_items l2 sd' rd'
    end.
Proof.
  revert sd rd. induction l1 as [|x l1 IH]; intros sd rd; [done|].
  destruct x; simpl; try apply IH.
  - by destruct (_handleInviteSet children) as [e|[[[u a] s]|]].
  - by destruct (_handleInviteRemove children) as [e|[u a]].
Qed.

(** X9. The items of a request are read in order into the two dictionaries:
    the first item that cannot be read ends the reading with its error,
    whatever follows it; and a later [InviteSet] (or [InviteRemove]) for a
    user replaces what an earlier one of the same user had put in the
    dictionary. *)
Theorem read_items_in_order l1 l2 (sd sd1 : SetDict) (rd rd1 : RemoveDict) :
  (∀ e, read_items l1 sd rd = inl e → read_items (l1 ++ l2) sd rd = inl e)
  ∧ (read_items l1 sd rd = inr (sd1, rd1) →
     read_items (l1 ++ l2) sd rd = read_items l2 sd1 rd1
     ∧ (∀ ch u a s, _handleInviteSet ch = inr (Some (u, a, s)) →
          ∃ sd2, read_items (l1 ++ [InviteSet ch]) sd rd = inr (sd2, rd1)
                 ∧ sd2 !! u = Some (a, s)
                 ∧ ∀ u', u' ≠ u → sd2 !! u' = sd1 !! u')
     ∧ (∀ ch u acc, _handleInviteRemove ch = inr (u, acc) →
          ∃ rd2, read_items (l1 ++ [InviteRemove ch]) sd rd = inr (sd1, rd2)
                 ∧ rd2 !! u = Some acc
                 ∧ ∀ u', u' ≠ u → rd2 !! u' = rd1 !! u')).
Proof.
  split.
  - intros e He. by rewrite read_items_app, He.
  - intros Hl1. split; [by rewrite read_items_app, Hl1|]. split.
    + intros ch u a s Hch. exists (<[u:=(a, s)]> sd1).
      rewrite read_items_app, Hl1. simpl. rewrite Hch.
      split; [done|]. split; [apply lookup_insert_eq|].
      intros u' Hne. by apply lookup_insert_ne.
    + intros ch u acc Hch. exists (<[u:=acc]> rd1).
      rewrite read_items_app, Hl1. simpl. rewrite Hch.
      split; [done|]. split; [apply lookup_insert_eq|].
      intros u' Hne. by apply lookup_insert_ne.
Qed.

Lemma read_items_in_order_witness :
  ∃ sd2, read_items ([invite_set "bob" ReadAccess "first"]
                     ++ [InviteSet [HRef [PCDATAElement "bob"];
                                    Access ReadWriteAccess;
                                    InviteSummary [PCDATAElement "second"]]])
                    ∅ ∅ = inr (sd2, ∅)
         ∧ sd2 !! "bob" = Some (ReadWriteAccess, "second").
Proof.
  destruct (read_items_in_order [invite_set "bob" ReadAccess "first"] []
              ∅ {["bob" := (ReadAccess, "first")]} ∅ ∅) as [_ Hok].
  destruct Hok as (_ & Hset & _); [reflexivity|].
  destruct (Hset [HRef [PCDATAElement "bob"]; Access ReadWriteAccess;
                  InviteSummary [PCDATAElement "second"]]
                 "bob" ReadWriteAccess "second") as (sd2 & Hread & Hbob & _);
    [reflexivity|].
  by exists sd2.
Defined.

(** X10. An [InviteSet] that has its three fields but an empty user id or an
    empty summary is not answered with the FORBIDDEN "missing" error: when
    the items before it are read without error, the handler answers
    BAD_REQUEST and leaves the state as it was. *)
Theorem empty_field_is_bad_request env pre post ch u a s
    (sd : SetDict) (rd : RemoveDict) w :
  read_items pre ∅ ∅ = inr (sd, rd) →
  last (href_texts ch) = Some u →
  last (access_elements ch) = Some a →
  last (summary_texts ch) = Some s →
  u = "" ∨ s = "" →
  _handleInvite env (pre ++ InviteSet ch :: post) w = (Code BAD_REQUEST, w).
Proof.
  intros Hpre Hu Ha Hs Hempty.
  assert (_handleInviteSet ch = inr None) as Hch.
  { rewrite _handleInviteSet_last, Hu, Ha, Hs.
    rewrite decide_False; [done|]. intros [? ?]. by destruct Hempty. }
  assert (read_items (pre ++ InviteSet ch :: post) ∅ ∅ = inl TypeError)
    as Hread.
  { rewrite read_items_app, Hpre. simpl. by rewrite Hch. }
  unfold _handleInvite, mbind, M_bind.
  by rewrite (_processInviteDoc_error env _ TypeError w
                (split_dicts_error env _ _ Hread)).
Qed.

Lemma empty_field_is_bad_request_witness :
  _handleInvite sample_env
    ([invite_remove "ghost"]
     ++ invite_set "mailto:bob@example.com" ReadAccess "" :: [])
    sample_world
  = (Code BAD_REQUEST, sample_world).
Proof.
  apply (empty_field_is_bad_request sample_env [invite_remove "ghost"] []
           _ "mailto:bob@example.com" ReadAccess "" ∅ {["ghost" := None]});
    try reflexivity.
  by right.
Defined.

(** ** The outcome of a batch *)

Ltac solve_is_Some :=
  repeat match goal with
         | H : is_Some None |- _ => by destruct (is_Some_None H)
         | H : ¬ is_Some (Some _) |- _ => by (exfalso; apply H; eauto)
         | H : _ ∧ _ |- _ => destruct H
         | H : _ ∨ _ |- _ => destruct H
         | |- _ ∧ _ => split
         | |- _ ↔ _ => split; intros
         | |- is_Some (Some _) => by eauto
         end; try done.

(** X11. Every user named by a request gets exactly one outcome: [okusers]
    and [badusers] have no user in common, and together they hold the users
    of the [InviteSet] and [InviteRemove] items and no other. *)
Theorem outcome_partition env children (sd0 sd : SetDict)
    (rd0 rd : RemoveDict) (ud : UpdateDict) w :
  iteration_ok env →
  read_items children ∅ ∅ = inr (sd0, rd0) →
  split_dicts env children = inr (sd, rd, ud) →
  let okusers := (apply_batch env sd rd ud w).1.1 in
  let badusers := (apply_batch env sd rd ud w).1.2 in
  (∀ u, u ∈ okusers → u ∉ badusers)
  ∧ (∀ u, u ∈ okusers ∨ u ∈ badusers ↔
          is_Some (sd0 !! u) ∨ is_Some (rd0 !! u)).
Proof.
  intros Hiter Hread Hsplit okusers badusers. subst okusers badusers.
  rewrite apply_batch_run. simpl.
  destruct (split_dicts_lookup env Hiter children sd0 rd0 Hread)
    as (sd' & rd' & ud' & Hsplit' & Hlook).
  rewrite Hsplit in Hsplit'. injection Hsplit' as <- <- <-.
  assert (∀ u, (is_Some (sd !! u) ↔ is_Some (sd0 !! u) ∧ rd0 !! u = None)
             ∧ (is_Some (rd !! u) ↔ is_Some (rd0 !! u) ∧ sd0 !! u = None)
             ∧ (is_Some (ud !! u) ↔ is_Some (sd0 !! u) ∧ is_Some (rd0 !! u)))
    as Hdom.
  { intros u. destruct (Hlook u) as (-> & -> & ->). unfold collapsed.
    destruct (rd0 !! u) as [acc|], (sd0 !! u) as [[a s]|];
      repeat case_decide; solve_is_Some. }
  split.
  - intros u. destruct (elem_of_outcome env Hiter sd rd ud u) as [-> ->].
    destruct (Hdom u) as (Hs & Hr & Hu).
    intros [Hrm|[_ Htrue]] [Hin Hfalse]; [|congruence].
    apply Hr in Hrm as [[? Hrd0] Hsd0].
    destruct Hin as [Hin|Hin]; [apply Hs in Hin|apply Hu in Hin];
      destruct Hin as [[? ?] _]; congruence.
  - intros u. destruct (elem_of_outcome env Hiter sd rd ud u) as [-> ->].
    destruct (Hdom u) as (Hs & Hr & Hu). rewrite Hs, Hr, Hu.
    destruct (resolves env u), (sd0 !! u) as [[a s]|], (rd0 !! u) as [acc|];
      split; intros H; try (by left; eauto); try (by right; eauto);
      try (by left; left; eauto); try (by left; right; eauto);
      try (by left; right; split; [left; eauto|]);
      try (by left; right; split; [right; eauto|]);
      try (by right; split; [left; eauto|]);
      try (by right; split; [right; eauto|]);
      exfalso; destruct_or?; solve_is_Some.
Qed.

Lemma outcome_partition_witness :
  "ghost" ∈ (apply_batch sample_env
               {["nobody" := (ReadAccess, "n")]} {["ghost" := None]}
               {["mailto:bob@example.com" := (None, ReadWriteAccess, "b")]}
               sample_world).1.1
  ∨ "ghost" ∈ (apply_batch sample_env
                 {["nobody" := (ReadAccess, "n")]} {["ghost" := None]}
                 {["mailto:bob@example.com" := (None, ReadWriteAccess, "b")]}
                 sample_world).1.2.
Proof.
  destruct (outcome_partition sample_env
    [invite_set "nobody" ReadAccess "n"; invite_remove "ghost";
     invite_set "mailto:bob@example.com" ReadWriteAccess "b";
     invite_remove "mailto:bob@example.com"]
    {["nobody" := (ReadAccess, "n");
      "mailto:bob@example.com" := (ReadWriteAccess, "b")]}
    {["nobody" := (ReadAccess, "n")]}
    {["ghost" := None; "mailto:bob@example.com" := None]}
    {["ghost" := None]}
    {["mailto:bob@example.com" := (None, ReadWriteAccess, "b")]}
    sample_world) as [_ Hall].
  - exact sample_iteration_ok.
  - reflexivity.
  - reflexivity.
  - apply Hall. right. by eexists.
Defined.

Lemma iteritems_empty env V :
  iteration_ok env → iteritems env V ∅ = [].
Proof.
  intros Hiter. apply Permutation_nil_r. by rewrite (Hiter V ∅), map_to_list_empty.
Qed.

Lemma read_items_nothing items (sd : SetDict) (rd : RemoveDict) :
  (∀ ch, (InviteSet ch ∉ items) ∧ (InviteRemove ch ∉ items)) →
  read_items items sd rd = inr (sd, rd).
Proof.
  induction items as [|x items IH]; intros Hnone; [done|].
  assert (∀ ch, (InviteSet ch ∉ items) ∧ (InviteRemove ch ∉ items)) as Hrest.
  { intros ch. destruct (Hnone ch) as [H1 H2].
    split; intros ?; [apply H1|apply H2]; by right. }
  destruct x; simpl; try by apply IH.
  - destruct (Hnone children) as [H _]. destruct H. by left.
  - destruct (Hnone children) as [_ H]. destruct H. by left.
Qed.

(** X12. A request without any [InviteSet] or [InviteRemove] item is answered
    [OK]; nothing is deleted or inserted for it and no [uuid4] drawn, but the
    invites are still validated: the state afterwards is the state after
    [validateInvites]. *)
Theorem empty_request_only_validates env children w :
  iteration_ok env →
  (∀ ch, (InviteSet ch ∉ children) ∧ (InviteRemove ch ∉ children)) →
  _handleInvite env children w = (Code OK, (validateInvites env w).2).
Proof.
  intros Hiter Hnone.
  assert (split_dicts env children = inr (∅, ∅, ∅)) as Hsplit.
  { unfold split_dicts. rewrite (read_items_nothing children ∅ ∅ Hnone).
    unfold sameUseridInRemoveAndSet, keys.
    by rewrite (iteritems_empty env _ Hiter). }
  unfold _handleInvite, mbind, M_bind.
  rewrite (_processInviteDoc_run env children ∅ ∅ ∅ w Hsplit).
  unfold outcome, mutated, updated, was_set, removed, keys.
  rewrite !(iteritems_empty env _ Hiter). simpl.
  unfold report. by rewrite decide_False by (by intros ?).
Qed.

Lemma empty_request_only_validates_witness :
  _handleInvite sample_env [OtherElement []; HRef [PCDATAElement "x"]]
    sample_world
  = (Code OK, (validateInvites sample_env sample_world).2).
Proof.
  apply empty_request_only_validates.
  - exact sample_iteration_ok.
  - intros ch. split; intros H;
      repeat (apply elem_of_cons in H as [H|H]; [done|]);
      by apply not_elem_of_nil in H.
Defined.

(** ** Invite uids *)

Section uid_facts.
Variable env : Env.

Lemma after_set_draws u ace s w :
  uuids_drawn (after_set env u ace s w)
  = uuids_drawn w + length (omap (validUserIDForShare env) [u]).
Proof.
  unfold after_set. simpl.
  destruct (validUserIDForShare env u); simpl; lia.
Qed.

Lemma sets_draw {V} (ace : V → AccessElement) (s : V → string)
    (l : list (string * V)) w :
  uuids_drawn (foldl (λ w kv, after_set env kv.1 (ace kv.2) (s kv.2) w) w l)
  = uuids_drawn w + length (omap (validUserIDForShare env) l.*1).
Proof.
  revert w. induction l as [|[u v] l IH]; intros w; [simpl; lia|].
  rewrite fmap_cons. simpl foldl. rewrite IH, after_set_draws.
  change ((u, v).1 :: l.*1) with ([u] ++ l.*1).
  rewrite omap_app, length_app. lia.
Qed.

Lemma uninvites_draw {V} (l : list (string * V)) w :
  uuids_drawn (foldl (λ w kv, after_uninvite kv.1 w) w l) = uuids_drawn w.
Proof. revert w. induction l as [|kv l IH]; intros w; [done|]. simpl. by rewrite IH. Qed.

Lemma sweep_draws records w :
  uuids_drawn (foldl (λ w r, sweep_step env r w) w records) = uuids_drawn w.
Proof.
  revert w. induction records as [|r records IH]; intros w; [done|].
  simpl. rewrite IH. unfold sweep_step. by destruct (decide _).
Qed.

Lemma uids_drawn_before_filter (P : Invite → Prop) `{∀ x, Decision (P x)} w w' :
  INVITE w' = filter P (INVITE w) → uuids_drawn w' = uuids_drawn w →
  uids_drawn_before env w → uids_drawn_before env w'.
Proof.
  intros Hrows Hn Hw r Hr. rewrite Hrows in Hr.
  apply list_elem_of_filter in Hr as [_ Hr]. rewrite Hn. by apply Hw.
Qed.

Lemma uids_drawn_before_sweep_step r w :
  r ∈ INVITE w ∨ (∃ k, k < uuids_drawn w ∧ inviteuid r = uuid4 env k) →
  uids_drawn_before env w → uids_drawn_before env (sweep_step env r w).
Proof.
  intros Hr Hw. unfold sweep_step. destruct (decide _); [|done].
  intros x Hx. simpl in *.
  apply elem_of_insert_or_replace in Hx as [->|(Hx & _)]; [|by apply Hw].
  simpl. destruct Hr as [Hr|Hr]; [by apply Hw|done].
Qed.

End uid_facts.

(** X13. A batch calls [uuid4] once for every user of the set and update
    dictionaries that resolves, and never otherwise: not for a removal, a
    refused set, or the validation.  When every stored invite uid came from
    [uuid4], so does every uid stored after the batch. *)
Theorem batch_draws_uids env children sd rd ud w :
  split_dicts env children = inr (sd, rd, ud) →
  let w' := (_processInviteDoc env children w).2 in
  uuids_drawn w'
  = uuids_drawn w
    + length (omap (validUserIDForShare env) (keys env sd ++ keys env ud))
  ∧ (uids_drawn_before env w → uids_drawn_before env w').
Proof.
  intros Hsplit w'. subst w'.
  rewrite (_processInviteDoc_run env children sd rd ud w Hsplit). simpl.
  rewrite validateInvites_run. simpl. split.
  - rewrite sweep_draws. simpl. unfold mutated, updated, was_set, removed.
    rewrite (sets_draw env (λ v, v.1.2) (λ v, v.2)).
    rewrite (sets_draw env (λ v, v.1) (λ v, v.2)).
    rewrite uninvites_draw, omap_app, length_app. unfold keys. lia.
  - intros Hw.
    assert (uids_drawn_before env (mutated env sd rd ud w)) as Hm.
    { unfold mutated, updated, was_set, removed.
      repeat (apply (foldl_inv (uids_drawn_before env));
              [intros kv w0 _ Hw0;
               first [by apply uids_drawn_before_after_set
                     |by apply (uids_drawn_before_filter env
                                  (λ x, userid x ≠ kv.1) w0)]|]).
      done. }
    set (wm := mutated env sd rd ud w) in *.
    enough (uids_drawn_before env
              (foldl (λ w0 r, sweep_step env r w0) (selected wm)
                 (InvitesTable.select_order_by_userid (INVITE wm)))
            ∧ uuids_drawn
                (foldl (λ w0 r, sweep_step env r w0) (selected wm)
                   (InvitesTable.select_order_by_userid (INVITE wm)))
              = uuids_drawn wm) as [H _] by exact H.
    apply (foldl_inv (λ w0, uids_drawn_before env w0
                            ∧ uuids_drawn w0 = uuids_drawn wm)); [|done].
    intros r w0 Hr [Hw0 Hn]. split.
    + apply uids_drawn_before_sweep_step; [|done]. right.
      rewrite Hn. apply Hm.
      by rewrite <-(select_order_by_userid_perm (INVITE wm)).
    + rewrite <-Hn. unfold sweep_step. by destruct (decide _).
Qed.

Lemma batch_draws_uids_witness :
  uuids_drawn (_processInviteDoc sample_env
                 [invite_set "mailto:alice@example.com" ReadAccess "a";
                  invite_set "nobody" ReadAccess "n";
                  invite_remove "ghost"] sample_world).2
  = uuids_drawn sample_world
    + length (omap (validUserIDForShare sample_env)
                (keys sample_env
                   ({["mailto:alice@example.com" := (ReadAccess, "a");
                      "nobody" := (ReadAccess, "n")]} : SetDict)
                 ++ keys sample_env (∅ : UpdateDict))).
Proof.
  apply (batch_draws_uids sample_env _ _ {["ghost" := None]}). reflexivity.
Defined.

(** ** Setting again and removing *)

Lemma filter_filter_subsumed (P Q : Invite → Prop)
    `{∀ x, Decision (P x)} `{∀ x, Decision (Q x)} (rows : list Invite) :
  (∀ x, x ∈ rows → Q x → P x) → filter P (filter Q rows) = filter Q rows.
Proof.
  intros HPQ. apply filter_all. intros x Hx.
  apply list_elem_of_filter in Hx as [HQ Hx]. by apply HPQ.
Qed.

Lemma filter_filter_implied (P Q : Invite → Prop)
    `{∀ x, Decision (P x)} `{∀ x, Decision (Q x)} (rows : list Invite) :
  (∀ x, P x → Q x) → filter P (filter Q rows) = filter P rows.
Proof.
  intros HPQ. induction rows as [|x rows IH]; [done|].
  rewrite (filter_cons Q), (filter_cons P x rows).
  destruct (decide (Q x)) as [HQ|HQ].
  - rewrite filter_cons, IH. done.
  - rewrite IH. destruct (decide (P x)) as [HP|HP]; [|done].
    destruct HQ. by apply HPQ.
Qed.

Lemma rows_for_userid_delete n u (rows : list Invite) :
  n ≠ u →
  rows_for_userid n (InvitesTable.delete_where_userid u rows)
  = rows_for_userid n rows.
Proof.
  intros Hne. apply filter_filter_implied. intros x Hx. congruence.
Qed.

(** X14. Sending the same set a second time adds no row: the table has as
    many rows after the second call as after the first, the rows of the other
    users are the same, and the row of the user differs only in its invite
    uid, which is drawn anew. *)
Theorem replayed_set_adds_no_row env u ace s w n :
  validUserIDForShare env u = Some n →
  Inj (=) (=) (uuid4 env) →
  uids_drawn_before env w →
  let w1 := (inviteUserToShare env u ace s w).2 in
  let w2 := (inviteUserToShare env u ace s w1).2 in
  length (INVITE w2) = length (INVITE w1)
  ∧ (∀ x, userid x ≠ n → x ∈ INVITE w2 ↔ x ∈ INVITE w1)
  ∧ ∃ r1 r2,
      rows_for_userid n (INVITE w1) = [r1]
      ∧ rows_for_userid n (INVITE w2) = [r2]
      ∧ access r2 = access r1 ∧ state r2 = state r1
      ∧ summary r2 = summary r1 ∧ inviteuid r2 ≠ inviteuid r1.
Proof.
  intros Hn Hinj Hw w1 w2. subst w1 w2.
  rewrite !inviteUserToShare_run. simpl. unfold after_set. rewrite Hn.
  set (r1 := invited env n ace s w).
  set (w1 := after_invite env n ace s w).
  set (r2 := invited env n ace s w1).
  assert (INVITE (after_invite env n ace s w1)
          = filter (λ x, userid x ≠ userid r1 ∧ inviteuid x ≠ inviteuid r1)
                   (INVITE w) ++ [r2]) as Hrows2.
  { change (INVITE (after_invite env n ace s w1))
      with (filter (λ x, userid x ≠ userid r2 ∧ inviteuid x ≠ inviteuid r2)
              (filter (λ x, userid x ≠ userid r1
                            ∧ inviteuid x ≠ inviteuid r1) (INVITE w)
               ++ [r1]) ++ [r2]).
    rewrite filter_app, filter_cons_False, filter_nil, app_nil_r
      by (simpl; intros [? _]; done).
    f_equal. apply filter_filter_subsumed.
    intros x Hx [Hxu _]. split; [done|]. simpl.
    destruct (Hw x Hx) as (k & Hk & Hxk). rewrite Hxk.
    intros Heq%Hinj. lia. }
  rewrite Hrows2. split; [|split].
  - unfold w1, after_invite, InvitesTable.insert_or_replace. simpl.
    fold r1. by rewrite !length_app.
  - intros x Hx. unfold w1, after_invite, InvitesTable.insert_or_replace.
    simpl. fold r1. rewrite !elem_of_app, !list_elem_of_singleton.
    split; (intros [?| ->]; [by left|by destruct Hx]).
  - exists r1, r2. split; [apply (rows_for_userid_insert r1)|].
    split.
    + rewrite <-Hrows2. apply (rows_for_userid_insert r2).
    + repeat split. simpl. intros Heq%Hinj. lia.
Qed.

Lemma replayed_set_adds_no_row_witness :
  length (INVITE (inviteUserToShare sample_env "mailto:alice@example.com"
                    ReadAccess "a"
                    (inviteUserToShare sample_env "mailto:alice@example.com"
                       ReadAccess "a" sample_world).2).2)
  = length (INVITE (inviteUserToShare sample_env "mailto:alice@example.com"
                      ReadAccess "a" sample_world).2).
Proof.
  destruct (replayed_set_adds_no_row sample_env "mailto:alice@example.com"
              ReadAccess "a" sample_world "/principals/users/alice")
    as [Hlen _].
  - reflexivity.
  - exact sample_uuid4_inj.
  - exact sample_world_uids.
  - exact Hlen.
Defined.

(** X15. A removal deletes the rows whose stored userid is the user id as
    given, not the principal it resolves to, and [removeUserFromInvite] does
    the same.  So removing a user by the id it was set with deletes the row
    only when that id is itself the principal URL; set by another address of
    the principal, the row stays. *)
Theorem removal_is_by_raw_id env u ace s acc w n :
  validUserIDForShare env u = Some n →
  let w1 := (inviteUserToShare env u ace s w).2 in
  let w2 := (uninviteUserToShare u acc w1).2 in
  (∀ x, x ∈ INVITE w2 ↔ x ∈ INVITE w1 ∧ userid x ≠ u)
  ∧ removeUserFromInvite u w1 = uninviteUserToShare u acc w1
  ∧ (n = u → rows_for_userid n (INVITE w2) = [])
  ∧ (n ≠ u → rows_for_userid n (INVITE w2) = rows_for_userid n (INVITE w1)
             ∧ rows_for_userid n (INVITE w2) = [invited env n ace s w]).
Proof.
  intros Hn w1 w2. subst w1 w2.
  rewrite inviteUserToShare_run. simpl. unfold after_set. rewrite Hn.
  set (w1 := after_invite env n ace s w).
  assert (rows_for_userid n (INVITE w1) = [invited env n ace s w]) as Hrow
    by apply (rows_for_userid_insert (invited env n ace s w)).
  split; [|split; [done|split]].
  - intros x. unfold InvitesTable.delete_where_userid.
    rewrite list_elem_of_filter. tauto.
  - intros ->. unfold rows_for_userid, InvitesTable.delete_where_userid.
    apply filter_none. intros x [? _]%list_elem_of_filter. done.
  - intros Hne.
    pose proof (rows_for_userid_delete n u (INVITE w1) Hne) as Heq.
    by rewrite Heq.
Qed.

Lemma removal_is_by_raw_id_witness :
  rows_for_userid "/principals/users/alice"
    (INVITE (uninviteUserToShare "mailto:alice@example.com" None
               (inviteUserToShare sample_env "mailto:alice@example.com"
                  ReadAccess "a" sample_world).2).2)
  = [mkInvite "uu0" "/principals/users/alice" "read-only" "NEEDS-ACTION" "a"].
Proof.
  destruct (removal_is_by_raw_id sample_env "mailto:alice@example.com"
              ReadAccess "a" None sample_world "/principals/users/alice")
    as (_ & _ & _ & Hstays); [reflexivity|].
  destruct Hstays as [_ Heq]; [done|exact Heq].
Defined.

(** ** The POST entry points *)

Section entry_facts.
Variable env : Env.
Variable isCollection : bool.
Variable isShared : Collection → bool.

Lemma _postHandlers_lookup a b h :
  _postHandlers env isShared !! (a, b) = Some h
  ↔ (a = "application" ∨ a = "text") ∧ b = "xml"
    ∧ h = xmlPOSTAuth env isShared.
Proof.
  unfold _postHandlers.
  rewrite lookup_insert_Some, lookup_singleton_Some. split.
  - intros [[[= <- <-] <-]|[_ [[= <- <-] <-]]]; eauto.
  - intros ([-> | ->] & -> & ->); [by left|right]. by split.
Qed.

Lemma xmlPOSTPreconditions_inr request encoding :
  xmlPOSTPreconditions request = inr encoding
  ↔ ∃ mimetype, Content_Type request = Some mimetype
      ∧ (mediaType mimetype = "application" ∨ mediaType mimetype = "text")
      ∧ mediaSubtype mimetype = "xml"
      ∧ encoding = default "utf8" (params mimetype !! "charset").
Proof.
  unfold xmlPOSTPreconditions.
  destruct (Content_Type request) as [m|];
    [|split; [done|by intros (? & ? & _)]].
  assert (mediaType m ∈ ["application"; "text"]
          ↔ mediaType m = "application" ∨ mediaType m = "text") as Hin.
  { rewrite elem_of_cons, list_elem_of_singleton. done. }
  destruct (bool_decide_reflect (mediaType m ∈ ["application"; "text"]))
    as [Hty|Hty];
    destruct (bool_decide_reflect (mediaSubtype m = "xml")) as [Hsub|Hsub];
    simpl; rewrite Hin in Hty; split;
    try (intros [= <-]; by eauto 10);
    try (intros (m' & [= <-] & ? & ? & ->); done).
Qed.

Lemma http_POST_run request self :
  http_POST env isCollection isShared request self
  = if isCollection then
      match xmlPOSTPreconditions request with
      | inr _ => if authorized request
                 then _getData env isShared (body request) self
                 else (inl NotAuthorized, self)
      | inl _ => (inr (Code FORBIDDEN), self)
      end
    else (inr (Code FORBIDDEN), self).
Proof.
  unfold http_POST. destruct isCollection; [|done].
  destruct (xmlPOSTPreconditions request) as [e|encoding] eqn:Hpre.
  - destruct (Content_Type request) as [m|] eqn:Hct; [|done].
    destruct (_postHandlers env isShared !! (mediaType m, mediaSubtype m))
      as [h|] eqn:Hh; [|done].
    apply _postHandlers_lookup in Hh as (Hty & Hs & ->).
    assert (xmlPOSTPreconditions request
            = inr (default "utf8" (params m !! "charset"))) as Hok
      by (apply xmlPOSTPreconditions_inr; eauto).
    congruence.
  - pose proof Hpre as Hpre'.
    apply xmlPOSTPreconditions_inr in Hpre' as (m & Hct & Hty & Hs & _).
    rewrite Hct.
    assert (_postHandlers env isShared !! (mediaType m, mediaSubtype m)
            = Some (xmlPOSTAuth env isShared)) as ->
      by by apply _postHandlers_lookup.
    unfold xmlPOSTAuth. rewrite Hpre. done.
Qed.

Lemma _handleInvite_malformed children ch w :
  InviteSet ch ∈ children → lacks_mandatory_field ch →
  ∃ e, request_error e
       ∧ _handleInvite env children w = (_handleErrorResponse e, w).
Proof.
  intros Hin Hlacks.
  destruct (read_items_malformed children ch ∅ ∅ Hin Hlacks) as [e He].
  exists e. split; [by apply (read_items_error_kind children ∅ ∅)|].
  unfold _handleInvite, mbind, M_bind.
  by rewrite (_processInviteDoc_error env children e w)
    by by apply split_dicts_error.
Qed.

End entry_facts.

(** X16. A POST fails only because [authorize] refuses it or because its body
    is not an [InviteShare] document; the content-type failure of
    [xmlPOSTPreconditions] is never raised through [http_POST], which hands
    over only requests whose content type passes that check. *)
Theorem post_failures env isCollection isShared request self e :
  (http_POST env isCollection isShared request self).1 = inl e →
  (∃ encoding, xmlPOSTPreconditions request = inr encoding)
  ∧ ((e = NotAuthorized ∧ authorized request = false)
     ∨ (e = InvalidRequest "valid-request-content"
        ∧ authorized request = true
        ∧ ∀ children, body request ≠ Some (InviteShare children))).
Proof.
  rewrite http_POST_run. destruct isCollection; [|done].
  destruct (xmlPOSTPreconditions request) as [e'|encoding]; [done|].
  intros He. split; [by eauto|].
  destruct (authorized request); [|left; by injection He as <-].
  right. unfold _getData in He.
  destruct (body request) as [[children|]|].
  - by destruct (_handleInvite env children _).
  - by injection He as <-.
  - by injection He as <-.
Qed.

Lemma post_failures_witness :
  ∃ encoding,
    xmlPOSTPreconditions
      (mkRequest (Some (mkMimeType "text" "xml" ∅)) true None)
    = inr encoding.
Proof.
  apply (post_failures sample_env true (λ _, false)
           (mkRequest (Some (mkMimeType "text" "xml" ∅)) true None)
           (mkCollection [Collection_; Calendar] sample_world)
           (InvalidRequest "valid-request-content")).
  reflexivity.
Defined.

(** X17. A POST that is turned away changes nothing: when the resource is
    not a collection, the content type is not an XML one, [authorize]
    refuses, or the body is not an [InviteShare] document, the collection is
    as before, and the only response such a request can get is FORBIDDEN. *)
Theorem rejected_post_changes_nothing env isCollection isShared request self :
  isCollection = false
  ∨ (∃ e, xmlPOSTPreconditions request = inl e)
  ∨ authorized request = false
  ∨ (∀ children, body request ≠ Some (InviteShare children)) →
  (http_POST env isCollection isShared request self).2 = self
  ∧ ∀ response,
      (http_POST env isCollection isShared request self).1 = inr response →
      response = Code FORBIDDEN.
Proof.
  rewrite http_POST_run. intros Hrej.
  destruct isCollection; [|split; [done|by intros ? [= <-]]].
  destruct (xmlPOSTPreconditions request) as [e'|encoding];
    [split; [done|by intros ? [= <-]]|].
  destruct (authorized request); [|done].
  destruct Hrej as [?|[[? ?]|[?|Hbody]]]; try done.
  unfold _getData. destruct (body request) as [[children|]|]; try done.
  by destruct (Hbody children).
Qed.

Lemma rejected_post_changes_nothing_witness :
  (http_POST sample_env true (λ _, false)
     (mkRequest (Some (mkMimeType "text" "plain" ∅)) true
                (Some (InviteShare [invite_remove "x"])))
     (mkCollection [Collection_; Calendar] sample_world)).2
  = mkCollection [Collection_; Calendar] sample_world.
Proof.
  apply (rejected_post_changes_nothing sample_env true (λ _, false)
           (mkRequest (Some (mkMimeType "text" "plain" ∅)) true
                      (Some (InviteShare [invite_remove "x"])))
           (mkCollection [Collection_; Calendar] sample_world)).
  right. left. eexists. reflexivity.
Defined.

(** X18. [_autoShare] is not undone: an accepted POST whose [InviteShare]
    document holds an [InviteSet] without its user id, access or summary gets
    the error response and leaves the database as it was, and yet a
    collection that was not shared has the shared-owner marker added to its
    resource type. *)
Theorem malformed_post_still_upgrades env isShared request self
    encoding children ch :
  xmlPOSTPreconditions request = inr encoding →
  authorized request = true →
  body request = Some (InviteShare children) →
  InviteSet ch ∈ children →
  lacks_mandatory_field ch →
  isShared self = false →
  ∃ e, request_error e
       ∧ http_POST env true isShared request self
         = (inr (_handleErrorResponse e),
            mkCollection (resourceType self ++ [SharedOwner])
                         (invitesDB self)).
Proof.
  intros Hpre Hauth Hbody Hin Hlacks Hshared.
  destruct (_handleInvite_malformed env children ch (invitesDB self)
              Hin Hlacks) as (e & He & Hrun).
  exists e. split; [done|].
  rewrite http_POST_run, Hpre, Hauth, Hbody. unfold _getData.
  rewrite Hshared. simpl. by rewrite Hrun.
Qed.

Lemma malformed_post_still_upgrades_witness :
  ∃ e, request_error e
       ∧ http_POST sample_env true
           (λ self, bool_decide (SharedOwner ∈ resourceType self))
           (mkRequest (Some (mkMimeType "text" "xml" ∅)) true
              (Some (InviteShare [InviteSet [HRef [PCDATAElement "x"]]])))
           (mkCollection [Collection_; Calendar] sample_world)
         = (inr (_handleErrorResponse e),
            mkCollection [Collection_; Calendar; SharedOwner] sample_world).
Proof.
  apply (malformed_post_still_upgrades sample_env
           (λ self, bool_decide (SharedOwner ∈ resourceType self))
           (mkRequest (Some (mkMimeType "text" "xml" ∅)) true
              (Some (InviteShare [InviteSet [HRef [PCDATAElement "x"]]])))
           (mkCollection [Collection_; Calendar] sample_world)
           "utf8" [InviteSet [HRef [PCDATAElement "x"]]]
           [HRef [PCDATAElement "x"]]).
  - reflexivity.
  - reflexivity.
  - reflexivity.
  - apply list_elem_of_singleton. reflexivity.
  - right. left. intros [a Ha]. apply list_elem_of_singleton in Ha.
    discriminate Ha.
  - reflexivity.
Defined.

(** ** A set and the validation that follows it *)

(** X19. The validation that follows a set judges the stored principal URL,
    not the user id of the request: when the user id resolves to the URL [n]
    the set returns true, and after [validateInvites] the one row of [n] is
    the row just written if [n] itself resolves, and that row in state
    INVALID if it does not. *)
Theorem set_is_validated_by_principal_url env u ace s w n :
  validUserIDForShare env u = Some n →
  InvitesTable.unique (INVITE w) →
  let w1 := (inviteUserToShare env u ace s w).2 in
  let w2 := (validateInvites env w1).2 in
  let row := invited env n ace s w in
  (inviteUserToShare env u ace s w).1 = true
  ∧ ∀ x, x ∈ INVITE w2 ∧ userid x = n
         ↔ x = (if decide (validUserIDForShare env n = None)
                then set_state "INVALID" row else row).
Proof.
  intros Hn Hu w1 w2 row. subst w1 w2.
  rewrite inviteUserToShare_run. simpl. unfold after_set, resolves.
  rewrite Hn. split; [by apply bool_decide_eq_true_2|].
  assert (InvitesTable.unique (INVITE (after_invite env n ace s w))) as Hu1
    by by apply unique_insert_or_replace.
  destruct (validateInvites_rows env _ Hu1) as [_ Hrows].
  assert (mark env row
          = (if decide (validUserIDForShare env n = None)
             then set_state "INVALID" row else row)) as <-.
  { unfold mark, needs_invalid. simpl.
    destruct (decide (validUserIDForShare env n = None)) as [Hv|Hv].
    - by rewrite decide_True.
    - rewrite decide_False; [done|]. by intros [? _]. }
  intros x. rewrite Hrows. split.
  - intros [(y & Hy & ->) Hx]. rewrite mark_userid in Hx. f_equal.
    apply elem_of_insert_or_replace in Hy as [->|(_ & Hne & _)]; [done|].
    by destruct Hne.
  - intros ->. split; [|by rewrite mark_userid].
    exists row. split; [|done].
    apply elem_of_insert_or_replace. by left.
Qed.

Lemma set_is_validated_by_principal_url_witness :
  (inviteUserToShare sample_env "mailto:alice@example.com" ReadAccess "a"
     sample_world).1 = true.
Proof.
  apply (set_is_validated_by_principal_url sample_env
           "mailto:alice@example.com" ReadAccess "a" sample_world
           "/principals/users/alice").
  - reflexivity.
  - exact sample_world_unique.
Defined.
